(** * zprocess.locking.server: the lock engine of the zlock server

    A shallow embedding of [src/zprocess/locking/server.py]: the reentrant
    readers-writer [Lock], the per-slot [LockRequest] state machine, the
    [Task]/[TaskQueue] timers and the [ZMQLockServer] dispatch, followed by
    the properties of the specification that are settled on it.

    Conventions of the embedding.
    - Python [bytes] are [string]; Python [int] is [Z]; a [set] is a [gset],
      a [dict] a [gmap].
    - Python exceptions are an explicit result type ([Raise e]); a handler
      whose exception nobody catches ends the event loop.
    - Objects that the code reaches through several references
      ([LockRequest] and [Task] instances) carry an object identity. *)

From stdpp Require Import base option list gmap sets strings.
From Stdlib Require Import ZArith QArith Ascii Lia Lqa.

Local Open Scope string_scope.
Local Open Scope list_scope.
Local Open Scope Z_scope.

(** ** Python values *)

Abbreviation bytes := string (only parsing).
Abbreviation Key := string (only parsing).
Abbreviation ClientId := string (only parsing).
Abbreviation RoutingId := string (only parsing).

(** The exceptions that the module raises, or that the built-in operations
    it calls raise. *)
Inductive exn : Type :=
  | AlreadyWaiting
  | InvalidReentry
  | NotHeld
  | RuntimeError
  | ValueError
  | AssertionError
  | AttributeError
  | TypeError
  | KeyError
  | IndexError.

#[global] Instance exn_eq_dec : EqDecision exn.
Proof. solve_decision. Defined.

(** The outcome of a call: a value, or a raised exception. *)
Inductive res (A : Type) : Type :=
  | Ret (a : A)
  | Raise (e : exn).
Arguments Ret {A} a.
Arguments Raise {A} e.

(** ** [set.pop()]

    [set.pop()] removes and returns an arbitrary element.  The engine is
    parametrised by the choice; the only facts available about it are that
    the chosen element belongs to the set and that a non-empty set yields
    one. *)
Record SetPop : Type := {
  choose : gset ClientId → option ClientId;
  choose_elem : ∀ s x, choose s = Some x → x ∈ s;
  choose_nonempty : ∀ s, s ≠ ∅ → is_Some (choose s)
}.

(** One way to pop: the first element in the enumeration order. *)
Definition first_elem (s : gset ClientId) : option ClientId :=
  head (elements s).

#[local] Obligation Tactic := idtac.

Program Definition first_pop : SetPop :=
  {| choose := first_elem |}.
Next Obligation.
  unfold first_elem. intros s x. rewrite <- elem_of_elements.
  destruct (elements s) as [|y l]; intros [= ->]. left.
Qed.
Next Obligation.
  unfold first_elem. intros s.
  destruct (elements s) as [|y l] eqn:E; simpl; [|eauto].
  apply elements_empty_inv in E. apply leibniz_equiv in E. done.
Qed.

(** ** Lock *)

Module Lock.

(** The fields of [Lock.__init__]; [server] is a back-reference and is
    handled by the caller ([ZMQLockServer] state, below). *)
Record t : Type := mk {
  key : Key;
  waiting_readers : gset ClientId;
  waiting_writers : gset ClientId;
  readers : gmap ClientId Z;        (* defaultdict(int): client -> level *)
  writer : option ClientId;
  writer_reentrancy_level : Z;
  invalid : bool
}.

Definition init (k : Key) : t :=
  mk k ∅ ∅ ∅ None 0 false.

Definition set_waiting_readers (v : gset ClientId) (l : t) : t :=
  mk (key l) v (waiting_writers l) (readers l) (writer l)
     (writer_reentrancy_level l) (invalid l).
Definition set_waiting_writers (v : gset ClientId) (l : t) : t :=
  mk (key l) (waiting_readers l) v (readers l) (writer l)
     (writer_reentrancy_level l) (invalid l).
Definition set_readers (v : gmap ClientId Z) (l : t) : t :=
  mk (key l) (waiting_readers l) (waiting_writers l) v (writer l)
     (writer_reentrancy_level l) (invalid l).
Definition set_writer (v : option ClientId) (n : Z) (l : t) : t :=
  mk (key l) (waiting_readers l) (waiting_writers l) (readers l) v n
     (invalid l).
Definition set_invalid (v : bool) (l : t) : t :=
  mk (key l) (waiting_readers l) (waiting_writers l) (readers l) (writer l)
     (writer_reentrancy_level l) v.

(** [self.readers[c] += 1] on a [defaultdict(int)]: a missing key reads 0. *)
Definition incr (c : ClientId) (m : gmap ClientId Z) : gmap ClientId Z :=
  <[c := default 0 (m !! c) + 1]> m.

(** [not any((readers, waiting_readers, waiting_writers))] *)
Definition no_members (l : t) : bool :=
  bool_decide (readers l = ∅) && bool_decide (waiting_readers l = ∅)
  && bool_decide (waiting_writers l = ∅).

(** [_check_cleanup]: the lock marks itself invalid when nobody holds or
    awaits it; the deletion from [server.active_locks] is done by the
    caller on seeing [invalid]. *)
Definition _check_cleanup (l : t) : t :=
  if no_members l then
    match writer l with
    | None => set_invalid true l
    | Some _ => l
    end
  else l.

(** The body of [acquire] inside [try]. *)
Definition acquire_body (l : t) (client_id : ClientId) (read_only : bool)
  : t * res bool :=
  if bool_decide (client_id ∈ waiting_readers l)
     || bool_decide (client_id ∈ waiting_writers l)
  then (l, Raise AlreadyWaiting)
  else if read_only then
    match writer l with
    | Some _ =>
        (set_waiting_readers ({[client_id]} ∪ waiting_readers l) l, Ret false)
    | None =>
        if bool_decide (waiting_writers l ≠ ∅) then
          if bool_decide (client_id ∈ dom (readers l)) then
            (set_readers (incr client_id (readers l)) l, Ret true)
          else
            (set_waiting_readers ({[client_id]} ∪ waiting_readers l) l,
             Ret false)
        else (set_readers (incr client_id (readers l)) l, Ret true)
    end
  else
    if bool_decide (client_id ∈ dom (readers l)) then (l, Raise InvalidReentry)
    else if (bool_decide (writer l = None)
             || bool_decide (writer l = Some client_id))
            && bool_decide (readers l = ∅)
    then (set_writer (Some client_id) (writer_reentrancy_level l + 1) l,
          Ret true)
    else (set_waiting_writers ({[client_id]} ∪ waiting_writers l) l,
          Ret false).

(** [acquire]: the validity check is outside the [try], the cleanup is in
    its [finally]. *)
Definition acquire (l : t) (client_id : ClientId) (read_only : bool)
  : t * res bool :=
  if invalid l then (l, Raise RuntimeError)
  else
    let '(l1, r) := acquire_body l client_id read_only in
    (_check_cleanup l1, r).

(** [for r in waiting_readers: readers[r] += 1] *)
Definition grant_all (ws : list ClientId) (m : gmap ClientId Z)
  : gmap ClientId Z :=
  foldr incr m ws.

Section WithPop.
Variable P : SetPop.

(** [self.writer = self.waiting_writers.pop();
     self.writer_reentrancy_level = 1; return {self.writer}];
    it is only reached with a non-empty set ([KeyError] otherwise). *)
Definition hand_to_writer (l : t) : t * res (gset ClientId) :=
  match choose P (waiting_writers l) with
  | Some w =>
      (set_writer (Some w) 1
         (set_waiting_writers (waiting_writers l ∖ {[w]}) l),
       Ret {[w]})
  | None => (l, Raise KeyError)
  end.

(** The body of [release] inside [try]. *)
Definition release_body (l : t) (client_id : ClientId) (fully : bool)
  : t * res (gset ClientId) :=
  match readers l !! client_id with
  | Some n =>
      let n' := n - 1 in
      let rs := if bool_decide (n' = 0) || fully
                then delete client_id (readers l)
                else <[client_id := n']> (readers l) in
      let l1 := set_readers rs l in
      (* Is the lock now available for a writer? *)
      if bool_decide (waiting_writers l1 ≠ ∅) && bool_decide (rs = ∅)
      then hand_to_writer l1
      else (l1, Ret ∅)
  | None =>
      if bool_decide (writer l = Some client_id) then
        let n' := writer_reentrancy_level l - 1 in
        let l1 := if bool_decide (n' = 0) || fully
                  then set_writer None 0 l
                  else set_writer (writer l) n' l in
        (* Is there a waiting writer to give the lock to? *)
        if bool_decide (waiting_writers l1 ≠ ∅) then hand_to_writer l1
        (* Are there waiting readers to give the lock to? *)
        else if bool_decide (waiting_readers l1 ≠ ∅) then
          let acquired := waiting_readers l1 in
          (set_waiting_readers ∅
             (set_readers (grant_all (elements acquired) (readers l1)) l1),
           Ret acquired)
        else (l1, Ret ∅)
      else (l, Raise NotHeld)
  end.

Definition release (l : t) (client_id : ClientId) (fully : bool)
  : t * res (gset ClientId) :=
  if invalid l then (l, Raise RuntimeError)
  else
    let '(l1, r) := release_body l client_id fully in
    (_check_cleanup l1, r).

End WithPop.

Definition give_up_ (l : t) (client_id : ClientId) : t * res unit :=
  if invalid l then (l, Raise RuntimeError)
  else
    let l1 :=
      if bool_decide (client_id ∈ waiting_readers l)
      then set_waiting_readers (waiting_readers l ∖ {[client_id]}) l
      else if bool_decide (client_id ∈ waiting_writers l)
      then set_waiting_writers (waiting_writers l ∖ {[client_id]}) l
      else l in
    (_check_cleanup l1, Ret ()).

End Lock.

(** ** Python floats

    A [float] is an IEEE 754 binary64 value: NaN, an infinity, the negative
    zero, or a finite value, given by the rational it denotes ([FFin 0] is
    the positive zero).  Sums, differences and products are rounded to the
    nearest double, ties to even, and overflow to an infinity. *)
Inductive pyfloat : Type :=
  | FNaN
  | FInf (negative : bool)
  | FFin (q : Q)
  | FNegZero.

Definition Qlt_bool (x y : Q) : bool := negb (Qle_bool y x).

(** The integer nearest to [a / d], the even one of two that are equally
    near ([0 ≤ a], [0 < d]). *)
Definition rne_div (a d : Z) : Z :=
  let k := a / d in
  let r := a mod d in
  if 2 * r <? d then k
  else if d <? 2 * r then k + 1
  else if Z.even k then k else k + 1.

(** The doubles are counted in steps of [2^-1074], the least positive
    double.  Below [2^53] steps the doubles are one step apart; from there
    on a double has 53 significant bits, and the doubles around a value of
    [n] steps and a fraction are [2^(log2 n - 52)] steps apart. *)
Definition ulp_exponent (n : Z) : Z :=
  if n <? 2 ^ 53 then 0 else Z.log2 n - 52.

(** [a / b] steps ([0 ≤ a], [0 < b]) rounded to the nearest double, in
    steps. *)
Definition round_steps (a b : Z) : Z :=
  let j := ulp_exponent (a / b) in
  rne_div a (b * 2 ^ j) * 2 ^ j.

(** [2^1074] steps make 1. *)
Definition steps : positive := 2 ^ 1074.

(** The least magnitude, in steps, that is no double any more: [2^1024]. *)
Definition overflow_steps : Z := 2 ^ 2098.

(** The double of sign [negative] and magnitude [u] steps. *)
Definition of_steps (negative : bool) (u : Z) : pyfloat :=
  if overflow_steps <=? u then FInf negative
  else if u =? 0 then (if negative then FNegZero else FFin 0)
  else FFin (Qred ((if negative then - u else u) # steps)).

(** The double nearest to the rational [x]. *)
Definition round64 (x : Q) : pyfloat :=
  of_steps (Qnum x <? 0)
           (round_steps (Z.abs (Qnum x) * Zpos steps) (Zpos (Qden x))).

(** [a + b].  A sum that is exactly zero is the positive zero, unless both
    terms are the negative zero. *)
Definition fadd (a b : pyfloat) : pyfloat :=
  match a, b with
  | FNaN, _ | _, FNaN => FNaN
  | FInf s, FInf s' => if Bool.eqb s s' then FInf s else FNaN
  | FInf s, _ | _, FInf s => FInf s
  | FNegZero, FNegZero => FNegZero
  | FNegZero, FFin x | FFin x, FNegZero => round64 x
  | FFin x, FFin y => round64 (x + y)
  end.

Definition fneg (a : pyfloat) : pyfloat :=
  match a with
  | FNaN => FNaN
  | FInf s => FInf (negb s)
  | FFin x => if Qnum x =? 0 then FNegZero else FFin (- x)
  | FNegZero => FFin 0
  end.

(** [a - b] *)
Definition fsub (a b : pyfloat) : pyfloat := fadd a (fneg b).

(** [k * x], for a positive [int] [k] that is a double: [1000 * x]. *)
Definition fscale (k : positive) (a : pyfloat) : pyfloat :=
  match a with
  | FFin x => round64 (inject_Z (Zpos k) * x)
  | other => other
  end.

(** The comparisons of IEEE 754: every comparison with NaN is false, and
    the two zeros are equal. *)
Definition flt (a b : pyfloat) : bool :=
  match a, b with
  | FNaN, _ | _, FNaN => false
  | FInf s, FInf s' => s && negb s'
  | FInf s, _ => s
  | _, FInf s => negb s
  | FFin x, FFin y => Qlt_bool x y
  | FFin x, FNegZero => Qlt_bool x 0
  | FNegZero, FFin y => Qlt_bool 0 y
  | FNegZero, FNegZero => false
  end.

Definition fgt (a b : pyfloat) : bool := flt b a.

Definition feq (a b : pyfloat) : bool :=
  match a, b with
  | FInf s, FInf s' => Bool.eqb s s'
  | FFin x, FFin y => Qeq_bool x y
  | FFin x, FNegZero | FNegZero, FFin x => Qeq_bool x 0
  | FNegZero, FNegZero => true
  | _, _ => false
  end.

(** [INVALID_NUMBERS = {float('nan'), float('inf'), float('-inf')}] *)
Definition INVALID_NUMBERS : list pyfloat := [FNaN; FInf false; FInf true].

(** [timeout in INVALID_NUMBERS].  Membership in a [set] finds an element
    that is the same object as, or [==] to, the value looked up.  [timeout]
    is the object that [float(timeout)] has just created, so it is none of
    the three objects stored in the set, and membership is decided by [==]
    alone. *)
Definition in_INVALID_NUMBERS (timeout : pyfloat) : bool :=
  existsb (feq timeout) INVALID_NUMBERS.

(** *** [float(bytes)]

    The built-in conversion, for the ASCII grammar
    [ws* sign? (digits [. [digits]] | . digits) ([eE] sign? digits)? ws*],
    where [digits] are decimal digits with single underscores allowed
    between two of them, and the case-insensitive words [nan], [inf] and
    [infinity].  [None] stands for [ValueError].  The value of a decimal
    literal is the double nearest to it: a literal beyond the doubles is an
    infinity, one below the least double a zero. *)
Module PyFloat.
Local Open Scope Z_scope.

Definition code (a : ascii) : Z := Z.of_N (N_of_ascii a).

Definition digit (a : ascii) : option Z :=
  let n := code a in
  if (48 <=? n) && (n <=? 57) then Some (n - 48) else None.

Definition is_space (a : ascii) : bool :=
  let n := code a in (n =? 32) || ((9 <=? n) && (n <=? 13)).

Definition lower (a : ascii) : ascii :=
  let n := code a in
  if (65 <=? n) && (n <=? 90) then ascii_of_N (Z.to_N (n + 32)) else a.

Fixpoint lstrip (l : list ascii) : list ascii :=
  match l with
  | a :: l' => if is_space a then lstrip l' else l
  | [] => []
  end.

Definition strip (l : list ascii) : list ascii :=
  rev (lstrip (rev (lstrip l))).

(** Reads a run of digits, with single underscores between two digits
    skipped: the accumulated value, the number of digits read and the rest
    of the input. *)
Fixpoint take_digits (l : list ascii) (acc : Z) (n : Z)
  : Z * Z * list ascii :=
  match l with
  | a :: l' =>
      match digit a with
      | Some d => take_digits l' (10 * acc + d) (n + 1)
      | None =>
          match l' with
          | b :: _ =>
              if bool_decide (a = "_"%char) && (0 <? n)
                 && bool_decide (is_Some (digit b))
              then take_digits l' acc n
              else (acc, n, l)
          | [] => (acc, n, l)
          end
      end
  | [] => (acc, n, [])
  end.

(** The double nearest to [m * 10^e]. *)
Definition decimal (m e : Z) : pyfloat :=
  if 0 <=? e then round64 (inject_Z (m * 10 ^ e))
  else round64 (Qmake m (Z.to_pos (10 ^ (- e)))).

Definition take_sign (l : list ascii) : bool * list ascii :=
  match l with
  | "+"%char :: l' => (false, l')
  | "-"%char :: l' => (true, l')
  | _ => (false, l)
  end.

Definition parse_exponent (l : list ascii) : option Z :=
  match l with
  | [] => Some 0
  | a :: l' =>
      if bool_decide (lower a = "e"%char) then
        let '(neg, l'') := take_sign l' in
        let '(e, n, rest) := take_digits l'' 0 0 in
        if (0 <? n) && bool_decide (rest = [])
        then Some (if neg then - e else e) else None
      else None
  end.

Definition parse_decimal (l : list ascii) : option pyfloat :=
  let '(ip, ni, r1) := take_digits l 0 0 in
  let '(m, nf, r2) :=
    match r1 with
    | "."%char :: r => take_digits r ip 0
    | _ => (ip, 0, r1)
    end in
  if ni + nf =? 0 then None
  else e ← parse_exponent r2; Some (decimal m (e - nf)).

Definition parse_unsigned (l : list ascii) : option pyfloat :=
  let w := String.string_of_list_ascii (map lower l) in
  if bool_decide (w = "nan") then Some FNaN
  else if bool_decide (w = "inf") || bool_decide (w = "infinity")
  then Some (FInf false)
  else parse_decimal l.

Definition of_bytes (b : bytes) : option pyfloat :=
  let '(neg, l) := take_sign (strip (String.list_ascii_of_string b)) in
  x ← parse_unsigned l;
  Some (if neg then fneg x else x).

End PyFloat.

(** ** The module constants *)

Definition MAX_RESPONSE_TIME : pyfloat := FFin 1.
Definition MAX_ABSENT_TIME : pyfloat := FFin 1.

Definition ERR_NOT_HELD : bytes := "error: lock not held".
Definition ERR_INVALID_REENTRY : bytes :=
  "error: lock already held read-only, cannot re-enter as writer".
Definition ERR_CONCURRENT : bytes :=
  "error: multiple concurrent requests with same key and client_id".
Definition ERR_INVALID_COMMAND : bytes := "error: invalid command".
Definition ERR_WRONG_NUM_ARGS : bytes := "error: wrong number of arguments".
Definition ERR_TIMEOUT_INVALID : bytes := "error: timeout not a valid number".
Definition ERR_READ_ONLY_WRONG : bytes :=
  "error: argument 4 if present can only 'read_only'".

(** ** Task and TaskQueue *)

(** The bound method a [Task] wraps, with the [LockRequest] object it is
    bound to: [self.advise_retry], [self.give_up], and [self.release] with
    its keyword argument [fully]. *)
Inductive Callback : Type :=
  | advise_retry_of (self : nat)
  | give_up_of (self : nat)
  | release_of (self : nat) (fully : bool).

Module Task.

(** [id] is the identity of the object: [Task] defines no [__eq__], so two
    tasks are [==] exactly when they are the same object. *)
Record t : Type := mk {
  id : nat;
  due_at : pyfloat;
  func : Callback;
  called : bool
}.

(** [__gt__]: tasks due sooner are greater than tasks due later. *)
Definition gt (self other : t) : bool := flt (due_at self) (due_at other).

(** [x < y] on tasks: [Task] has no [__lt__], so Python evaluates the
    reflected [y.__gt__(x)]. *)
Definition lt (x y : t) : bool := gt y x.

(** [==] *)
Definition eqb (x y : t) : bool := Nat.eqb (id x) (id y).

End Task.

Module TaskQueue.

(** The loop of [bisect.insort] ([bisect.insort_right]):
    [while lo < hi: mid = (lo + hi) // 2;
     if x < a[mid]: hi = mid else: lo = mid + 1].
    The interval halves at every turn; [fuel] bounds the turns. *)
Fixpoint bisect (fuel : nat) (a : list Task.t) (x : Task.t) (lo hi : nat)
  : nat :=
  match fuel with
  | O => lo
  | S fuel' =>
      if (lo <? hi)%nat then
        let mid := ((lo + hi) / 2)%nat in
        match a !! mid with
        | Some y =>
            if Task.lt x y then bisect fuel' a x lo mid
            else bisect fuel' a x (mid + 1)%nat hi
        | None => lo
        end
      else lo
  end.

(** [add]: [insort(self, task)] *)
Definition add (q : list Task.t) (task : Task.t) : list Task.t :=
  let i := bisect (S (length q)) q task 0 (length q) in
  take i q ++ task :: drop i q.

(** [next]: [self[-1]] *)
Definition next (q : list Task.t) : res Task.t :=
  match last q with
  | Some t => Ret t
  | None => Raise IndexError
  end.

(** [list.pop()] *)
Definition pop (q : list Task.t) : res (Task.t * list Task.t) :=
  match last q with
  | Some t => Ret (t, removelast q)
  | None => Raise IndexError
  end.

(** [list.remove(x)]: deletes the first item that is [==] to [x];
    [None] stands for the [ValueError] of a list without such an item. *)
Fixpoint remove (q : list Task.t) (x : Task.t) : option (list Task.t) :=
  match q with
  | [] => None
  | y :: q' =>
      if Task.eqb y x then Some q'
      else cons y <$> remove q' x
  end.

(** [cancel]: [self.remove(task)] *)
Definition cancel (q : list Task.t) (task : Task.t) : res (list Task.t) :=
  match remove q task with
  | Some q' => Ret q'
  | None => Raise ValueError
  end.

End TaskQueue.

(** ** The objects of the server *)

Module State.

(** [class rs(enum.IntEnum)] *)
Inductive rs : Type :=
  | INITIAL
  | PRESENT_WAITING
  | ABSENT_WAITING
  | ABSENT_HELD
  | HELD.

#[global] Instance rs_eq_dec : EqDecision rs.
Proof. solve_decision. Defined.

(** The fields of [LockRequest.__init__] ([server] is the one server). *)
Record request : Type := mkRequest {
  key : Key;
  client_id : ClientId;
  routing_id : option RoutingId;
  timeout : option pyfloat;
  read_only : option bool;
  state : rs;
  advise_retry_task : option Task.t;
  give_up_task : option Task.t;
  timeout_task : option Task.t
}.

(** The fields of [ZMQLockServer] that the engine uses, and what the
    embedding adds to them:
    - [objects]: the [LockRequest] objects by identity;
      [active_requests] holds references into it, as do the tasks;
    - [next_id]: the next unused object identity;
    - [sent]: the messages passed to [router.send_multipart], oldest
      first;
    - [clock], [clock_reads]: [clock n] is the time of the environment at
      the [n]-th call of [monotonic()], which returns the double nearest
      to it; [clock_reads] counts the calls made. *)
Record server : Type := mkServer {
  tasks : list Task.t;
  active_locks : gmap Key Lock.t;
  active_requests : gmap (Key * ClientId) nat;
  stopping : bool;
  objects : gmap nat request;
  next_id : nat;
  sent : list (list bytes);
  clock : nat → Q;
  clock_reads : nat
}.

Definition set_tasks (v : list Task.t) (s : server) : server :=
  mkServer v (active_locks s) (active_requests s) (stopping s) (objects s)
           (next_id s) (sent s) (clock s) (clock_reads s).
Definition set_active_locks (v : gmap Key Lock.t) (s : server) : server :=
  mkServer (tasks s) v (active_requests s) (stopping s) (objects s)
           (next_id s) (sent s) (clock s) (clock_reads s).
Definition set_active_requests (v : gmap (Key * ClientId) nat) (s : server)
  : server :=
  mkServer (tasks s) (active_locks s) v (stopping s) (objects s)
           (next_id s) (sent s) (clock s) (clock_reads s).
Definition set_objects (v : gmap nat request) (s : server) : server :=
  mkServer (tasks s) (active_locks s) (active_requests s) (stopping s) v
           (next_id s) (sent s) (clock s) (clock_reads s).
Definition set_next_id (v : nat) (s : server) : server :=
  mkServer (tasks s) (active_locks s) (active_requests s) (stopping s)
           (objects s) v (sent s) (clock s) (clock_reads s).
Definition set_sent (v : list (list bytes)) (s : server) : server :=
  mkServer (tasks s) (active_locks s) (active_requests s) (stopping s)
           (objects s) (next_id s) v (clock s) (clock_reads s).
Definition set_clock_reads (v : nat) (s : server) : server :=
  mkServer (tasks s) (active_locks s) (active_requests s) (stopping s)
           (objects s) (next_id s) (sent s) (clock s) v.

Definition set_routing_id (v : option RoutingId) (r : request) : request :=
  mkRequest (key r) (client_id r) v (timeout r) (read_only r) (state r)
            (advise_retry_task r) (give_up_task r) (timeout_task r).
Definition set_timeout (v : option pyfloat) (r : request) : request :=
  mkRequest (key r) (client_id r) (routing_id r) v (read_only r) (state r)
            (advise_retry_task r) (give_up_task r) (timeout_task r).
Definition set_read_only (v : option bool) (r : request) : request :=
  mkRequest (key r) (client_id r) (routing_id r) (timeout r) v (state r)
            (advise_retry_task r) (give_up_task r) (timeout_task r).
Definition set_state (v : rs) (r : request) : request :=
  mkRequest (key r) (client_id r) (routing_id r) (timeout r) (read_only r) v
            (advise_retry_task r) (give_up_task r) (timeout_task r).
Definition set_advise_retry_task (v : option Task.t) (r : request)
  : request :=
  mkRequest (key r) (client_id r) (routing_id r) (timeout r) (read_only r)
            (state r) v (give_up_task r) (timeout_task r).
Definition set_give_up_task (v : option Task.t) (r : request) : request :=
  mkRequest (key r) (client_id r) (routing_id r) (timeout r) (read_only r)
            (state r) (advise_retry_task r) v (timeout_task r).
Definition set_timeout_task (v : option Task.t) (r : request) : request :=
  mkRequest (key r) (client_id r) (routing_id r) (timeout r) (read_only r)
            (state r) (advise_retry_task r) (give_up_task r) v.

(** [ZMQLockServer.__init__], with the clock of the environment. *)
Definition init (clk : nat → Q) : server :=
  mkServer [] ∅ ∅ false ∅ 0 [] clk 0.

End State.

Import State.

(** ** Computations on the server: state and exceptions

    A computation returns a value or raises, and leaves a state either way
    (the state reached when the exception was raised). *)
Definition M (A : Type) : Type := server → res A * server.

Definition ret {A} (a : A) : M A := λ s, (Ret a, s).
Definition raise {A} (e : exn) : M A := λ s, (Raise e, s).
Definition bind {A B} (m : M A) (k : A → M B) : M B :=
  λ s, match m s with
       | (Ret a, s') => k a s'
       | (Raise e, s') => (Raise e, s')
       end.
Definition gets {A} (f : server → A) : M A := λ s, (Ret (f s), s).
Definition modify (f : server → server) : M unit := λ s, (Ret (), f s).
Definition lift {A} (r : res A) : M A := λ s, (r, s).

(** [try: body except e: handler] *)
Definition try_except {A} (body : M A) (e : exn) (handler : M A) : M A :=
  λ s, match body s with
       | (Raise e', s') =>
           if bool_decide (e' = e) then handler s' else (Raise e', s')
       | ok => ok
       end.

Notation "x <- m ;; k" := (bind m (λ x, k))
  (at level 100, m at next level, right associativity).
Notation "m ;; k" := (bind m (λ _, k))
  (at level 100, right associativity).

Fixpoint for_each {A} (l : list A) (body : A → M unit) : M unit :=
  match l with
  | [] => ret ()
  | x :: l' => body x ;; for_each l' body
  end.

(** [monotonic()] *)
Definition monotonic : M pyfloat :=
  λ s, (Ret (round64 (clock s (clock_reads s))),
        set_clock_reads (S (clock_reads s)) s).

(** Allocation of an object identity. *)
Definition fresh : M nat :=
  λ s, (Ret (next_id s), set_next_id (S (next_id s)) s).

(** [Task(due_in, func, ...)]: [Task.__init__] *)
Definition new_task (due_in : pyfloat) (f : Callback) : M Task.t :=
  i <- fresh ;;
  now <- monotonic ;;
  ret (Task.mk i (fadd now due_in) f false).

(** [Task.due_in] *)
Definition Task_due_in (t : Task.t) : M pyfloat :=
  now <- monotonic ;;
  ret (fsub (Task.due_at t) now).

(** [server.tasks.add(task)] *)
Definition tasks_add (t : Task.t) : M unit :=
  modify (λ s, set_tasks (TaskQueue.add (tasks s) t) s).

(** [server.tasks.cancel(task)], where [task] is read from a field that
    holds [None] until a task is scheduled. *)
Definition tasks_cancel (task : option Task.t) : M unit :=
  match task with
  | None => raise ValueError
  | Some t =>
      q <- gets tasks ;;
      q' <- lift (TaskQueue.cancel q t) ;;
      modify (set_tasks q')
  end.

(** [server.tasks.pop()] *)
Definition tasks_pop : M Task.t :=
  q <- gets tasks ;;
  p <- lift (TaskQueue.pop q) ;;
  modify (set_tasks p.2) ;;
  ret p.1.

(** [ZMQLockServer.send]:
    [self.router.send_multipart([routing_id, b'', message])].  The routing
    id of a request is [None] until its first frame; the socket refuses
    such a frame. *)
Definition send (routing_id : option RoutingId) (message : bytes) : M unit :=
  match routing_id with
  | Some r => modify (λ s, set_sent (sent s ++ [[r; ""; message]]) s)
  | None => raise TypeError
  end.

(** [lock = Lock.instance(key, server)] followed by one method call on
    [lock].  [Lock.instance] returns the lock stored under [key] or stores a
    new one there; the method mutates that object, and its [_check_cleanup]
    runs [del self.server.active_locks[self.key]] when it marks the lock
    invalid. *)
Definition lock_call {A} (key : Key) (method : Lock.t → Lock.t * res A)
  : M A :=
  λ s,
    let l := default (Lock.init key) (active_locks s !! key) in
    let '(l', r) := method l in
    let table := <[key := l']> (active_locks s) in
    (r, set_active_locks
          (if Lock.invalid l' then delete (Lock.key l') table else table) s).

Module LockRequest.
Section WithPop.
Variable P : SetPop.

(** Reading and writing the fields of the object [self]. *)
Definition load (self : nat) : M request :=
  λ s, match objects s !! self with
       | Some r => (Ret r, s)
       | None => (Raise AttributeError, s)
       end.

Definition update (self : nat) (f : request → request) : M unit :=
  modify (λ s, set_objects (alter f self (objects s)) s).

(** [__init__] *)
Definition init (key : Key) (client_id : ClientId) : request :=
  mkRequest key client_id None None None INITIAL None None None.

Definition instance (key : Key) (client_id : ClientId) : M nat :=
  reqs <- gets active_requests ;;
  match reqs !! (key, client_id) with
  | Some self => ret self
  | None =>
      self <- fresh ;;
      modify (λ s, set_objects (<[self := init key client_id]> (objects s))
                     s) ;;
      modify (λ s, set_active_requests
                     (<[(key, client_id) := self]> (active_requests s)) s) ;;
      ret self
  end.

(** [del self.server.active_requests[self.key, self.client_id]] *)
Definition _cleanup (self : nat) : M unit :=
  r <- load self ;;
  reqs <- gets active_requests ;;
  match reqs !! (key r, client_id r) with
  | Some _ =>
      modify (set_active_requests (delete (key r, client_id r) reqs))
  | None => raise KeyError
  end.

Definition schedule_advise_retry (self : nat) : M unit :=
  t <- new_task MAX_RESPONSE_TIME (advise_retry_of self) ;;
  update self (set_advise_retry_task (Some t)) ;;
  tasks_add t.

Definition cancel_advise_retry (self : nat) : M unit :=
  r <- load self ;;
  tasks_cancel (advise_retry_task r).

Definition schedule_give_up (self : nat) : M unit :=
  t <- new_task MAX_ABSENT_TIME (give_up_of self) ;;
  update self (set_give_up_task (Some t)) ;;
  tasks_add t.

Definition cancel_give_up (self : nat) : M unit :=
  r <- load self ;;
  tasks_cancel (give_up_task r).

Definition schedule_timeout_release (self : nat) (timeout : pyfloat)
  : M unit :=
  t <- new_task timeout (release_of self true) ;;
  update self (set_timeout_task (Some t)) ;;
  tasks_add t.

Definition cancel_timeout_release (self : nat) : M unit :=
  r <- load self ;;
  tasks_cancel (timeout_task r).

(** Tell the client to retry acquiring the lock. *)
Definition advise_retry (self : nat) : M unit :=
  r <- load self ;;
  send (routing_id r) "retry" ;;
  schedule_give_up self ;;
  update self (set_state ABSENT_WAITING).

(** Stop trying to acquire the lock. *)
Definition give_up_ (self : nat) (cleanup : bool) : M unit :=
  r <- load self ;;
  lock_call (key r) (λ l, Lock.give_up_ l (client_id r)) ;;
  if cleanup then _cleanup self else ret ().

Definition on_triggered_acquisition (self : nat) : M unit :=
  r <- load self ;;
  match state r with
  | PRESENT_WAITING =>
      send (routing_id r) "ok" ;;
      match timeout r with
      | Some t => schedule_timeout_release self t
      | None => raise TypeError
      end ;;
      cancel_advise_retry self ;;
      update self (set_state HELD)
  | ABSENT_WAITING =>
      cancel_give_up self ;;
      schedule_timeout_release self MAX_ABSENT_TIME ;;
      update self (set_state ABSENT_HELD)
  | _ => raise ValueError
  end.

Definition _initial_acquisition (self : nat) (routing_id : RoutingId)
    (timeout : pyfloat) (read_only : bool) : M unit :=
  update self (set_routing_id (Some routing_id)) ;;
  update self (set_timeout (Some timeout)) ;;
  update self (set_read_only (Some read_only)) ;;
  r <- load self ;;
  ok <- lock_call (key r) (λ l, Lock.acquire l (client_id r) read_only) ;;
  if ok : bool then
    send (Some routing_id) "ok" ;;
    schedule_timeout_release self timeout ;;
    update self (set_state HELD)
  else
    schedule_advise_retry self ;;
    update self (set_state PRESENT_WAITING).

(** Release the lock for the client, and process any triggered
    acquisitions. *)
Definition release (self : nat) (fully : bool) : M unit :=
  r <- load self ;;
  acquirers <- lock_call (key r)
                 (λ l, Lock.release P l (client_id r) fully) ;;
  for_each (elements acquirers)
    (λ client_id,
       other_request <- instance (key r) client_id ;;
       on_triggered_acquisition other_request) ;;
  _cleanup self.

(** A client has requested to acquire the lock. *)
Definition acquire_request (self : nat) (routing_id : RoutingId)
    (timeout : pyfloat) (read_only : bool) : M unit :=
  r <- load self ;;
  match state r with
  | INITIAL => _initial_acquisition self routing_id timeout read_only
  | HELD =>
      try_except
        (ok <- lock_call (key r)
                 (λ l, Lock.acquire l (client_id r) read_only) ;;
         (if ok : bool then ret () else raise AssertionError) ;;
         send (Some routing_id) "ok" ;;
         (* Extend the timeout if necessary: *)
         now <- monotonic ;;
         r' <- load self ;;
         match timeout_task r' with
         | None => raise AttributeError
         | Some task =>
             if fgt (fadd now timeout) (Task.due_at task) then
               cancel_timeout_release self ;;
               schedule_timeout_release self timeout
             else ret ()
         end)
        InvalidReentry
        (send (Some routing_id) ERR_INVALID_REENTRY)
  | ABSENT_HELD =>
      send (Some routing_id) "ok" ;;
      cancel_timeout_release self ;;
      schedule_timeout_release self timeout ;;
      update self (set_state HELD)
  | ABSENT_WAITING =>
      cancel_give_up self ;;
      if bool_decide (Some read_only ≠ State.read_only r) then
        give_up_ self false ;;
        _initial_acquisition self routing_id timeout read_only
      else
        update self (set_timeout (Some timeout)) ;;
        update self (set_routing_id (Some routing_id)) ;;
        schedule_advise_retry self ;;
        update self (set_state PRESENT_WAITING)
  | PRESENT_WAITING =>
      send (Some routing_id) ERR_CONCURRENT
  end.

Definition release_request (self : nat) (routing_id : RoutingId) : M unit :=
  r <- load self ;;
  match state r with
  | HELD =>
      send (Some routing_id) "ok" ;;
      release self false ;;
      cancel_timeout_release self
  | ABSENT_HELD =>
      send (Some routing_id) ERR_NOT_HELD ;;
      release self false ;;
      cancel_timeout_release self
  | PRESENT_WAITING =>
      send (Some routing_id) ERR_CONCURRENT
  | INITIAL | ABSENT_WAITING =>
      send (Some routing_id) ERR_NOT_HELD
  end.

(** [Task.__call__], with the bound methods it can wrap.  The task has
    left the queue when it is called, and nothing reads [called] through
    another reference, so the assignment [self.called = True] is not
    recorded. *)
Definition Task_call (task : Task.t) : M unit :=
  if Task.called task then raise RuntimeError
  else
    match Task.func task with
    | advise_retry_of self => advise_retry self
    | give_up_of self => give_up_ self true
    | release_of self fully => release self fully
    end.

End WithPop.
End LockRequest.

Module ZMQLockServer.
Section WithPop.
Variable P : SetPop.

Definition acquire_request (routing_id : RoutingId) (args : list bytes)
  : M unit :=
  if negb ((3 <=? length args)%nat && (length args <=? 4)%nat) then
    send (Some routing_id) ERR_WRONG_NUM_ARGS
  else
    match args with
    | key :: client_id :: timeout :: rest =>
        match PyFloat.of_bytes timeout with
        | None => send (Some routing_id) ERR_TIMEOUT_INVALID
        | Some timeout =>
            if in_INVALID_NUMBERS timeout then
              send (Some routing_id) ERR_TIMEOUT_INVALID
            else
              let continue (read_only : bool) :=
                request <- LockRequest.instance key client_id ;;
                LockRequest.acquire_request request routing_id timeout
                  read_only in
              if (length args =? 4)%nat then
                if bool_decide (args !! 3%nat ≠ Some "read_only") then
                  send (Some routing_id) ERR_READ_ONLY_WRONG
                else continue true
              else continue false
        end
    | _ => raise ValueError
    end.

Definition release_request (routing_id : RoutingId) (args : list bytes)
  : M unit :=
  if negb (length args =? 2)%nat then
    send (Some routing_id) ERR_WRONG_NUM_ARGS
  else
    match args with
    | [key; client_id] =>
        request <- LockRequest.instance key client_id ;;
        LockRequest.release_request P request routing_id
    | _ => raise ValueError
    end.

(** [max(0, 1000 * self.tasks.next().due_in())], or [None] without
    tasks: the timeout handed to [poller.poll]. *)
Definition poll_timeout : M (option pyfloat) :=
  q <- gets tasks ;;
  match q with
  | [] => ret None
  | _ =>
      t <- lift (TaskQueue.next q) ;;
      d <- Task_due_in t ;;
      let ms := fscale 1000 d in
      ret (Some (if fgt ms (FFin 0) then ms else FFin 0))
  end.

(** One turn of the [while True] loop of [run].  [events] is what
    [poller.poll(timeout)] and [recv_multipart] deliver: a request, or
    nothing when the poll timed out.  The result tells whether the loop
    goes on ([false] after [break]).  A poll without timeout only returns
    with a request, so [events = None] goes with a non-empty queue. *)
Definition run_iteration (events : option (list bytes)) : M bool :=
  _ <- poll_timeout ;;
  match events with
  | Some request =>
      (* A request was received: *)
      if (length request <? 3)%nat
         || bool_decide (request !! 1%nat ≠ Some "")
      then ret true
      else
        match request with
        | routing_id :: _ :: command :: args =>
            if bool_decide (command = "hello") then
              send (Some routing_id) "hello" ;; ret true
            else if bool_decide (command = "acquire") then
              acquire_request routing_id args ;; ret true
            else if bool_decide (command = "release") then
              release_request routing_id args ;; ret true
            else if bool_decide (command = "stop") then
              stopping <- gets stopping ;;
              if stopping : bool then
                send (Some routing_id) "ok" ;; ret false
              else
                send (Some routing_id) ERR_INVALID_COMMAND ;; ret true
            else
              send (Some routing_id) ERR_INVALID_COMMAND ;; ret true
        | _ => raise IndexError
        end
  | None =>
      (* A task is due: *)
      task <- tasks_pop ;;
      LockRequest.Task_call P task ;;
      ret true
  end.

(** The loop on a list of successive poll results. *)
Fixpoint run (inputs : list (option (list bytes))) : M bool :=
  match inputs with
  | [] => ret true
  | events :: rest =>
      go_on <- run_iteration events ;;
      if go_on : bool then run rest else ret false
  end.

End WithPop.
End ZMQLockServer.


(** ** The invariants of the data model

    Section 3 of the specification, for one lock: a writer excludes
    readers; a client is in at most one of the membership sets; reentry
    counts are strictly positive. *)
Module LockInv.

Record invariants (l : Lock.t) : Prop := {
  writer_excludes_readers :
    is_Some (Lock.writer l) → Lock.readers l = ∅;
  readers_not_waiting :
    dom (Lock.readers l) ## Lock.waiting_readers l ∪ Lock.waiting_writers l;
  waiting_disjoint :
    Lock.waiting_readers l ## Lock.waiting_writers l;
  writer_nowhere_else :
    ∀ c, Lock.writer l = Some c →
         c ∉ dom (Lock.readers l) ∪ Lock.waiting_readers l
               ∪ Lock.waiting_writers l;
  reader_levels_positive :
    map_Forall (λ _ n, 0 < n) (Lock.readers l);
  writer_level_positive :
    is_Some (Lock.writer l) → 1 ≤ Lock.writer_reentrancy_level l
}.

End LockInv.

(** [n] successive calls of [release(client_id)] with [fully=False], up to
    the first one that raises. *)
Fixpoint release_times (P : SetPop) (n : nat) (l : Lock.t) (c : ClientId)
  : Lock.t * res unit :=
  match n with
  | O => (l, Ret ())
  | S n' =>
      match Lock.release P l c false with
      | (l', Ret _) => release_times P n' l' c
      | (l', Raise e) => (l', Raise e)
      end
  end.

(** ** Auxiliary states *)


(** ** Concrete inputs *)

(** A clock whose [n]-th reading is [n] seconds. *)
Definition clk0 (n : nat) : Q := inject_Z (Z.of_nat n).

(** A clock whose [n]-th reading is [n / 2] seconds. *)
Definition clk_half (n : nat) : Q := Z.of_nat n # 2.

(** Writer ["c"] has entered twice and writer ["w"] waits. *)
Definition writer_twice_writer_waits : Lock.t :=
  Lock.mk "k" ∅ {["w"]} ∅ (Some "c") 2 false.

(** Writer ["c"] has entered twice and reader ["r"] waits. *)
Definition writer_twice_reader_waits : Lock.t :=
  Lock.mk "k" {["r"]} ∅ ∅ (Some "c") 2 false.

(** Writer ["c"] has entered once; a writer and two readers wait. *)
Definition writer_once_all_wait : Lock.t :=
  Lock.mk "k" {["r1"; "r2"]} {["w"]} ∅ (Some "c") 1 false.

(** Writer ["c"] has entered once; two readers wait. *)
Definition writer_once_readers_wait : Lock.t :=
  Lock.mk "k" {["r1"; "r2"]} ∅ ∅ (Some "c") 1 false.

(** The server after ["c1"] has acquired ["k"] as writer and ["c2"] has
    asked for it: the request of ["c2"] is PRESENT_WAITING. *)
Definition server_c2_waits : server :=
  (ZMQLockServer.run first_pop
     [Some ["r1"; ""; "acquire"; "k"; "c1"; "10"];
      Some ["r2"; ""; "acquire"; "k"; "c2"; "10"]]
     (State.init clk0)).2.

(** The server after ["c1"] has acquired ["k"] as writer for 10 seconds,
    the request object of ["c1"] and its lease task. *)
Definition server_c1_holds : server :=
  (ZMQLockServer.run first_pop
     [Some ["r1"; ""; "acquire"; "k"; "c1"; "10"]]
     (State.init clk0)).2.

Definition c1_lease : Task.t :=
  Task.mk 1 (FFin 10) (release_of 0 true) false.

Definition c1_request : request :=
  mkRequest "k" "c1" (Some "r1") (Some (FFin 10)) (Some false) HELD
            None None (Some c1_lease).

(** A pending task, as [schedule_timeout_release] builds them. *)
Definition lease_task (i : nat) (due : Q) : Task.t :=
  Task.mk i (FFin due) (release_of 0 true) false.

(** * Properties *)

(** Popping a singleton leaves no choice. *)
Lemma choose_singleton (P : SetPop) (s : gset ClientId) (w : ClientId) :
  s = {[w]} → choose P s = Some w.
Proof.
  intros ->.
  destruct (choose_nonempty P {[w]}) as [x Hx]; [set_solver|].
  pose proof (choose_elem P _ _ Hx) as Hin.
  apply elem_of_singleton in Hin. by subst.
Qed.

(** ** Lock *)

(** The cleanup leaves alone a lock that has a writer or a reader. *)
Lemma check_cleanup_writer l :
  is_Some (Lock.writer l) → Lock._check_cleanup l = l.
Proof.
  intros [w Hw]. unfold Lock._check_cleanup. rewrite Hw.
  by destruct (Lock.no_members l).
Qed.

Lemma check_cleanup_readers l :
  Lock.readers l ≠ ∅ → Lock._check_cleanup l = l.
Proof.
  intros H. unfold Lock._check_cleanup, Lock.no_members.
  by rewrite (bool_decide_eq_false_2 _ H).
Qed.

(** Both concrete locks are reached from a new lock by calls of [acquire]
    alone, and satisfy the invariants. *)
Lemma writer_twice_writer_waits_reached :
  let l1 := (Lock.acquire (Lock.init "k") "c" false).1 in
  let l2 := (Lock.acquire l1 "c" false).1 in
  Lock.acquire l2 "w" false = (writer_twice_writer_waits, Ret false).
Proof. vm_compute. reflexivity. Qed.

Lemma writer_twice_reader_waits_reached :
  let l1 := (Lock.acquire (Lock.init "k") "c" false).1 in
  let l2 := (Lock.acquire l1 "c" false).1 in
  Lock.acquire l2 "r" true = (writer_twice_reader_waits, Ret false).
Proof. vm_compute. reflexivity. Qed.

Lemma writer_twice_reader_waits_invariants :
  LockInv.invariants writer_twice_reader_waits.
Proof.
  split; simpl.
  - done.
  - rewrite dom_empty_L. set_solver.
  - set_solver.
  - intros c [= <-]. rewrite dom_empty_L. set_unfold. intuition discriminate.
  - apply map_Forall_empty.
  - lia.
Qed.

Lemma writer_twice_writer_waits_invariants :
  LockInv.invariants writer_twice_writer_waits.
Proof.
  split; simpl.
  - done.
  - rewrite dom_empty_L. set_solver.
  - set_solver.
  - intros c [= <-]. rewrite dom_empty_L. set_unfold. intuition discriminate.
  - apply map_Forall_empty.
  - lia.
Qed.

(** A reader with reentry level [n + 1] releases [n + 1] times without
    exception, whoever waits, and is no reader afterwards. *)
Lemma reader_releases_succeed (P : SetPop) (c : ClientId) (n : nat) :
  ∀ l, Lock.invalid l = false →
       Lock.readers l !! c = Some (Z.of_nat (S n)) →
       ∃ l', release_times P (S n) l c = (l', Ret ())
             ∧ Lock.readers l' !! c = None.
Proof.
  induction n as [|n IH]; intros l Hvalid Hc.
  - cbn [release_times]. unfold Lock.release, Lock.release_body.
    rewrite Hvalid, Hc.
    rewrite (bool_decide_eq_true_2 (Z.of_nat 1 - 1 = 0)) by reflexivity.
    cbn [orb Lock.set_readers Lock.waiting_writers].
    destruct (bool_decide _ && bool_decide _) eqn:E.
    + apply andb_true_iff in E as [E1 E2].
      apply bool_decide_eq_true in E1, E2.
      unfold Lock.hand_to_writer.
      change (Lock.waiting_writers
                (Lock.set_readers (delete c (Lock.readers l)) l))
        with (Lock.waiting_writers l).
      destruct (choose_nonempty P _ E1) as [w Hw]. rewrite Hw.
      rewrite check_cleanup_writer by (simpl; eauto).
      eexists. split; [reflexivity|]. simpl. apply lookup_delete_eq.
    + eexists. split; [reflexivity|].
      unfold Lock._check_cleanup.
      destruct (Lock.no_members _); [|simpl; apply lookup_delete_eq].
      destruct (Lock.writer _); simpl; apply lookup_delete_eq.
  - cbn [release_times]. unfold Lock.release at 1, Lock.release_body.
    rewrite Hvalid, Hc.
    replace (Z.of_nat (S (S n)) - 1) with (Z.of_nat (S n)) by lia.
    rewrite (bool_decide_eq_false_2 (Z.of_nat (S n) = 0)) by lia.
    cbn [orb].
    rewrite (bool_decide_eq_false_2 (<[c:=Z.of_nat (S n)]> (Lock.readers l)
                                     = ∅))
      by apply insert_non_empty.
    rewrite andb_false_r.
    rewrite check_cleanup_readers by (simpl; apply insert_non_empty).
    apply IH; simpl; [exact Hvalid|apply lookup_insert_eq].
Qed.

(** C1, at the input that breaks it.  Writer ["c"] holds the lock with
    reentry level 2 while writer ["w"] waits.  The first [release] by ["c"]
    succeeds but hands the lock to ["w"] although ["c"] still has one level
    left; the second [release] by ["c"] raises [NotHeld]. *)
Theorem C1_second_release_of_writer_not_held (P : SetPop) :
  ∃ l1,
    Lock.release P writer_twice_writer_waits "c" false = (l1, Ret {["w"]})
    ∧ Lock.writer l1 = Some "w"
    ∧ Lock.writer_reentrancy_level l1 = 1
    ∧ (Lock.release P l1 "c" false).2 = Raise NotHeld
    ∧ (release_times P 2 writer_twice_writer_waits "c").2 = Raise NotHeld.
Proof.
  assert (Lock.release P writer_twice_writer_waits "c" false
          = (Lock.mk "k" ∅ ∅ ∅ (Some "w") 1 false, Ret {["w"]})) as H1.
  { unfold Lock.release, Lock.release_body, Lock.hand_to_writer. simpl.
    rewrite (choose_singleton P _ "w") by reflexivity.
    vm_compute. reflexivity. }
  eexists. split; [exact H1|].
  split; [reflexivity|]. split; [reflexivity|].
  split; [vm_compute; reflexivity|].
  cbn [release_times]. rewrite H1. vm_compute. reflexivity.
Qed.

(** The cleanup changes neither the writer nor the readers. *)
Lemma check_cleanup_fields l :
  Lock.writer (Lock._check_cleanup l) = Lock.writer l
  ∧ Lock.readers (Lock._check_cleanup l) = Lock.readers l.
Proof.
  unfold Lock._check_cleanup.
  destruct (Lock.no_members l); [|done].
  by destruct (Lock.writer l) eqn:E.
Qed.

(** [acquire] and [give_up] keep a writer and readers apart. *)
Lemma acquire_keeps_writer_from_readers (l : Lock.t) (c : ClientId)
    (read_only : bool) :
  (is_Some (Lock.writer l) → Lock.readers l = ∅) →
  let l' := (Lock.acquire l c read_only).1 in
  is_Some (Lock.writer l') → Lock.readers l' = ∅.
Proof.
  intros Hinv. unfold Lock.acquire.
  destruct (Lock.invalid l); [exact Hinv|].
  destruct (Lock.acquire_body l c read_only) as [l1 r] eqn:E.
  cbn [fst]. destruct (check_cleanup_fields l1) as [-> ->].
  unfold Lock.acquire_body in E.
  destruct (_ || _) in E; [by injection E as <- <-|].
  destruct read_only.
  - destruct (Lock.writer l) eqn:Hw.
    + injection E as <- <-. simpl. rewrite Hw. exact Hinv.
    + destruct (bool_decide (Lock.waiting_writers l ≠ ∅));
        [destruct (bool_decide (c ∈ dom (Lock.readers l)))|];
        injection E as <- <-; simpl; rewrite ?Hw; by intros [? ?].
  - destruct (bool_decide (c ∈ dom (Lock.readers l)));
      [by injection E as <- <-|].
    destruct (_ && _) eqn:Hb; injection E as <- <-; simpl; [|exact Hinv].
    apply andb_true_iff in Hb as [_ Hb].
    by apply bool_decide_eq_true in Hb.
Qed.

Lemma give_up_keeps_writer_from_readers (l : Lock.t) (c : ClientId) :
  (is_Some (Lock.writer l) → Lock.readers l = ∅) →
  let l' := (Lock.give_up_ l c).1 in
  is_Some (Lock.writer l') → Lock.readers l' = ∅.
Proof.
  intros Hinv. unfold Lock.give_up_.
  destruct (Lock.invalid l); [exact Hinv|]. cbn [fst].
  destruct (check_cleanup_fields
              (if bool_decide (c ∈ Lock.waiting_readers l)
               then Lock.set_waiting_readers
                      (Lock.waiting_readers l ∖ {[c]}) l
               else if bool_decide (c ∈ Lock.waiting_writers l)
                    then Lock.set_waiting_writers
                           (Lock.waiting_writers l ∖ {[c]}) l
                    else l)) as [-> ->].
  destruct (bool_decide (c ∈ Lock.waiting_readers l)); [exact Hinv|].
  destruct (bool_decide (c ∈ Lock.waiting_writers l)); exact Hinv.
Qed.

(** C2, at the input that breaks it.  Writer ["c"] holds the lock with
    reentry level 2 while reader ["r"] waits; the state satisfies the
    invariants.  One [release] by ["c"] leaves ["c"] installed as writer
    and grants the lock to ["r"] as a reader. *)
Theorem C2_writer_release_grants_readers_beside_writer (P : SetPop) :
  LockInv.invariants writer_twice_reader_waits
  ∧ ∃ l1,
      Lock.release P writer_twice_reader_waits "c" false = (l1, Ret {["r"]})
      ∧ Lock.writer l1 = Some "c"
      ∧ Lock.writer_reentrancy_level l1 = 1
      ∧ Lock.readers l1 = {["r" := 1]}.
Proof.
  split; [apply writer_twice_reader_waits_invariants|].
  eexists. split; [|split; [|split]].
  - vm_compute. reflexivity.
  - reflexivity.
  - reflexivity.
  - vm_compute. reflexivity.
Qed.

(** [grant_all] adds one level to every listed client and touches nobody
    else. *)
Lemma grant_all_lookup (ws : list ClientId) (m : gmap ClientId Z) c :
  NoDup ws →
  Lock.grant_all ws m !! c =
    if decide (c ∈ ws) then Some (default 0 (m !! c) + 1) else m !! c.
Proof.
  induction ws as [|w ws IH]; intros Hnd.
  - rewrite decide_False by apply not_elem_of_nil. done.
  - apply NoDup_cons in Hnd as [Hw Hnd].
    change (Lock.grant_all (w :: ws) m)
      with (Lock.incr w (Lock.grant_all ws m)).
    unfold Lock.incr.
    destruct (decide (w = c)) as [->|Hne].
    + rewrite lookup_insert_eq, (IH Hnd).
      rewrite decide_False by done. rewrite decide_True by left. done.
    + rewrite lookup_insert_ne by done. rewrite (IH Hnd).
      destruct (decide (c ∈ ws)) as [Hin|Hin].
      * rewrite decide_True by (by right). done.
      * rewrite decide_False; [done|].
        intros [?|?]%elem_of_cons; congruence.
Qed.

(** What [acquire] answers to a client that already holds the lock and
    does not wait: a reader may re-enter read-only and may not upgrade; a
    writer may re-enter as writer, and is made to wait when it asks
    read-only. *)
Lemma reentry_of_reader (l : Lock.t) (c : ClientId) :
  Lock.invalid l = false →
  c ∉ Lock.waiting_readers l → c ∉ Lock.waiting_writers l →
  is_Some (Lock.readers l !! c) → Lock.writer l = None →
  (Lock.acquire l c true).2 = Ret true
  ∧ (Lock.acquire l c false).2 = Raise InvalidReentry.
Proof.
  intros Hvalid Hwr Hww Hc Hw. unfold Lock.acquire, Lock.acquire_body.
  rewrite Hvalid, Hw.
  rewrite (bool_decide_eq_false_2 _ Hwr), (bool_decide_eq_false_2 _ Hww).
  apply elem_of_dom in Hc. rewrite (bool_decide_eq_true_2 _ Hc).
  cbn [orb]. split; [|done].
  by destruct (bool_decide (Lock.waiting_writers l ≠ ∅)).
Qed.

Lemma reentry_of_writer (l : Lock.t) (c : ClientId) :
  Lock.invalid l = false →
  c ∉ Lock.waiting_readers l → c ∉ Lock.waiting_writers l →
  Lock.writer l = Some c → Lock.readers l = ∅ →
  (Lock.acquire l c false).2 = Ret true
  ∧ (Lock.acquire l c true).2 = Ret false.
Proof.
  intros Hvalid Hwr Hww Hw Hr. unfold Lock.acquire, Lock.acquire_body.
  rewrite Hvalid, Hw, Hr.
  rewrite (bool_decide_eq_false_2 _ Hwr), (bool_decide_eq_false_2 _ Hww).
  rewrite dom_empty_L.
  rewrite (bool_decide_eq_false_2 (c ∈ ∅)) by apply not_elem_of_empty.
  rewrite (bool_decide_eq_true_2 (Some c = Some c)) by done.
  rewrite (bool_decide_eq_true_2 (∅ = ∅)) by done.
  rewrite orb_true_r. by cbn [orb andb snd].
Qed.

(** C6.  The writer [c] gives the lock up for good: its level is 1, or
    [fully] is set.  ([c] is no reader, or [release] would treat it as one;
    no waiting reader is a reader already: invariant 2.)  With waiting
    writers, one of them becomes the writer with level 1, leaves the
    waiting set and is the singleton that [release] returns.  Without
    waiting writers but with waiting readers, every waiting reader becomes
    a reader with level 1, nobody is left waiting to read, and [release]
    returns exactly the former waiting readers. *)
Theorem C6_writer_release_hands_over (P : SetPop) (l : Lock.t)
    (c : ClientId) (fully : bool) :
  Lock.invalid l = false →
  Lock.writer l = Some c →
  Lock.readers l !! c = None →
  (∀ c', c' ∈ Lock.waiting_readers l → Lock.readers l !! c' = None) →
  Lock.writer_reentrancy_level l - 1 = 0 ∨ fully = true →
  let l' := (Lock.release P l c fully).1 in
  let r := (Lock.release P l c fully).2 in
  (Lock.waiting_writers l ≠ ∅ →
     ∃ w, w ∈ Lock.waiting_writers l
          ∧ r = Ret {[w]}
          ∧ Lock.writer l' = Some w
          ∧ Lock.writer_reentrancy_level l' = 1
          ∧ Lock.waiting_writers l' = Lock.waiting_writers l ∖ {[w]}
          ∧ Lock.waiting_readers l' = Lock.waiting_readers l
          ∧ Lock.readers l' = Lock.readers l)
  ∧ (Lock.waiting_writers l = ∅ → Lock.waiting_readers l ≠ ∅ →
       r = Ret (Lock.waiting_readers l)
       ∧ Lock.writer l' = None
       ∧ Lock.waiting_readers l' = ∅
       ∧ Lock.waiting_writers l' = ∅
       ∧ (∀ c', c' ∈ Lock.waiting_readers l →
                Lock.readers l' !! c' = Some 1)
       ∧ (∀ c', c' ∉ Lock.waiting_readers l →
                Lock.readers l' !! c' = Lock.readers l !! c')).
Proof.
  intros Hvalid Hw Hc Hwaiting Hfull.
  destruct (Lock.release P l c fully) as [l' r] eqn:E. simpl.
  unfold Lock.release in E. rewrite Hvalid in E.
  unfold Lock.release_body in E. rewrite Hc in E.
  rewrite (bool_decide_eq_true_2 _ Hw) in E.
  assert (bool_decide (Lock.writer_reentrancy_level l - 1 = 0) || fully = true)
    as Hb.
  { destruct Hfull as [H0| ->]; [|apply orb_true_r].
    by rewrite (bool_decide_eq_true_2 _ H0). }
  rewrite Hb in E.
  change (Lock.waiting_writers (Lock.set_writer None 0 l))
    with (Lock.waiting_writers l) in E.
  change (Lock.waiting_readers (Lock.set_writer None 0 l))
    with (Lock.waiting_readers l) in E.
  change (Lock.readers (Lock.set_writer None 0 l)) with (Lock.readers l) in E.
  split.
  - intros Hne. rewrite (bool_decide_eq_true_2 _ Hne) in E.
    unfold Lock.hand_to_writer in E.
    change (Lock.waiting_writers (Lock.set_writer None 0 l))
      with (Lock.waiting_writers l) in E.
    destruct (choose_nonempty P _ Hne) as [w Hch]. rewrite Hch in E.
    rewrite check_cleanup_writer in E by (simpl; eauto).
    injection E as <- <-.
    exists w. simpl.
    repeat split; try done. by apply (choose_elem P).
  - intros He Hne.
    rewrite bool_decide_eq_false_2 in E by (intros H; by apply H).
    rewrite (bool_decide_eq_true_2 _ Hne) in E.
    assert (∀ c', Lock.grant_all (elements (Lock.waiting_readers l))
                    (Lock.readers l) !! c'
                  = if decide (c' ∈ Lock.waiting_readers l)
                    then Some 1 else Lock.readers l !! c') as Hlook.
    { intros c'. rewrite grant_all_lookup by apply NoDup_elements.
      destruct (decide (c' ∈ elements (Lock.waiting_readers l))) as [H|H];
        rewrite elem_of_elements in H.
      - rewrite decide_True by done. by rewrite (Hwaiting c' H).
      - by rewrite decide_False. }
    rewrite check_cleanup_readers in E.
    2:{ simpl. apply set_choose_L in Hne as [x Hx]. intros Hempty.
        specialize (Hlook x). rewrite Hempty, lookup_empty in Hlook.
        by rewrite decide_True in Hlook. }
    injection E as <- <-. simpl. repeat split; try done.
    + intros c' Hc'. rewrite Hlook. by rewrite decide_True.
    + intros c' Hc'. rewrite Hlook. by rewrite decide_False.
Qed.

(** The theorem at a lock where a writer and two readers wait, and at one
    where only the two readers wait. *)
Lemma C6_witness :
  (Lock.invalid writer_once_all_wait = false
   ∧ Lock.writer writer_once_all_wait = Some "c"
   ∧ Lock.readers writer_once_all_wait !! "c" = None
   ∧ (∀ c', c' ∈ Lock.waiting_readers writer_once_all_wait →
            Lock.readers writer_once_all_wait !! c' = None)
   ∧ Lock.writer_reentrancy_level writer_once_all_wait - 1 = 0)
  ∧ (∃ w, w ∈ Lock.waiting_writers writer_once_all_wait
          ∧ (Lock.release first_pop writer_once_all_wait "c" false).2
            = Ret {[w]})
  ∧ (Lock.release first_pop writer_once_readers_wait "c" false).2
    = Ret {["r1"; "r2"]}.
Proof.
  split; [by repeat split|]. split.
  - destruct (C6_writer_release_hands_over first_pop writer_once_all_wait
                "c" false eq_refl eq_refl eq_refl (λ _ _, eq_refl)
                (or_introl eq_refl))
      as [H _].
    destruct H as (w & Hw & Hr & _).
    + vm_compute. discriminate.
    + exists w. split; [exact Hw|exact Hr].
  - destruct (C6_writer_release_hands_over first_pop writer_once_readers_wait
                "c" false eq_refl eq_refl eq_refl (λ _ _, eq_refl)
                (or_introl eq_refl))
      as [_ H].
    destruct H as (Hr & _).
    + reflexivity.
    + vm_compute. discriminate.
    + exact Hr.
Defined.

(** ** TaskQueue *)

(** [remove] on a queue that holds no task equal to [t]. *)
Lemma remove_absent (q : list Task.t) (t : Task.t) :
  Forall (λ y, Task.eqb y t = false) q → TaskQueue.remove q t = None.
Proof.
  induction 1 as [|y q Hy _ IH]; simpl; [done|]. by rewrite Hy, IH.
Qed.

(** [remove] deletes the first task equal to [t]. *)
Lemma remove_first (q1 q2 : list Task.t) (t' t : Task.t) :
  Forall (λ y, Task.eqb y t = false) q1 → Task.eqb t' t = true →
  TaskQueue.remove (q1 ++ t' :: q2) t = Some (q1 ++ q2).
Proof.
  intros H Ht'. induction H as [|y q Hy _ IH]; simpl.
  - by rewrite Ht'.
  - by rewrite Hy, IH.
Qed.

(** C5 as stated fails.  The queue holds the one task [t]; the loop pops
    it and calls it.  Cancelling [t] afterwards is no no-op: it raises
    [ValueError], as does cancelling a task that was never added. *)
Lemma C5_counterexample :
  TaskQueue.pop [lease_task 0 5] = Ret (lease_task 0 5, [])
  ∧ TaskQueue.cancel [] (lease_task 0 5) = Raise ValueError
  ∧ TaskQueue.cancel [] (lease_task 0 5) ≠ Ret []
  ∧ TaskQueue.cancel [lease_task 1 7] (lease_task 0 5) = Raise ValueError
  ∧ TaskQueue.cancel [lease_task 1 7] (lease_task 0 5)
    ≠ Ret [lease_task 1 7].
Proof. repeat split; discriminate. Qed.

(** C5, amended.  [cancel t] removes [t] from a queue in which it is
    pending, keeping the other tasks in their order; on a queue that does
    not hold [t] (it has fired, or was never added) it raises
    [ValueError]. *)
Theorem C5_cancel_removes_or_raises (q : list Task.t) (t : Task.t) :
  (∀ q1 t' q2,
     q = q1 ++ t' :: q2 →
     Task.eqb t' t = true →
     Forall (λ y, Task.eqb y t = false) q1 →
     TaskQueue.cancel q t = Ret (q1 ++ q2))
  ∧ (Forall (λ y, Task.eqb y t = false) q →
     TaskQueue.cancel q t = Raise ValueError).
Proof.
  unfold TaskQueue.cancel. split.
  - intros q1 t' q2 -> Ht' Hq1. by rewrite (remove_first q1 q2 t' t).
  - intros Hq. by rewrite remove_absent.
Qed.

(** The theorem at a queue of three tasks, and at the queue without the
    cancelled one. *)
Lemma C5_witness :
  TaskQueue.cancel [lease_task 2 9; lease_task 0 5; lease_task 1 3]
    (lease_task 0 5)
  = Ret [lease_task 2 9; lease_task 1 3]
  ∧ TaskQueue.cancel [lease_task 2 9; lease_task 1 3] (lease_task 0 5)
    = Raise ValueError.
Proof.
  split.
  - apply (proj1 (C5_cancel_removes_or_raises _ (lease_task 0 5))
             [lease_task 2 9] (lease_task 0 5) [lease_task 1 3]).
    + reflexivity.
    + reflexivity.
    + repeat constructor.
  - apply (proj2 (C5_cancel_removes_or_raises _ (lease_task 0 5))).
    repeat constructor.
Defined.

(** ** Evaluation of handlers *)

(** Evaluation of the computations of the embedding. *)
Ltac run_step :=
  cbn [bind ret raise gets modify lift try_except for_each monotonic
       fresh send tasks_cancel tasks_add tasks_pop new_task Task_due_in
       LockRequest.load LockRequest.update LockRequest.instance
       LockRequest.init
       fst snd
       tasks active_locks active_requests stopping objects next_id sent
       clock clock_reads
       set_tasks set_active_locks set_active_requests set_objects
       set_next_id set_sent set_clock_reads
       key client_id routing_id timeout read_only state advise_retry_task
       give_up_task timeout_task
       set_routing_id set_timeout set_read_only set_state
       set_advise_retry_task set_give_up_task set_timeout_task].

(** Reads the fields of a request that was stored or updated before. *)
Ltac load_field :=
  run_step;
  rewrite ?lookup_alter_eq, ?lookup_insert_eq;
  cbn [fmap option_fmap option_map];
  first [reflexivity | eassumption].

Lemma load_eq (self : nat) (r : request) (s : server) :
  objects s !! self = Some r → LockRequest.load self s = (Ret r, s).
Proof. intros H. unfold LockRequest.load. by rewrite H. Qed.

Lemma instance_tracked (key client : string) (self : nat) (s : server) :
  active_requests s !! (key, client) = Some self →
  LockRequest.instance key client s = (Ret self, s).
Proof. intros H. unfold LockRequest.instance. run_step. by rewrite H. Qed.

(** ** The server at concrete frames *)

(** The other three reentries of a HELD request are answered: a writer
    re-entering as writer and a reader re-entering read-only get [ok], a
    reader asking to write gets [ERR_INVALID_REENTRY]. *)
Lemma held_reentry_other_modes (P : SetPop) :
  let run inputs := ZMQLockServer.run P inputs (State.init clk0) in
  (run [Some ["r1"; ""; "acquire"; "k"; "c1"; "10"];
        Some ["r1"; ""; "acquire"; "k"; "c1"; "10"]]).1 = Ret true
  ∧ sent (run [Some ["r1"; ""; "acquire"; "k"; "c1"; "10"];
               Some ["r1"; ""; "acquire"; "k"; "c1"; "10"]]).2
    = [["r1"; ""; "ok"]; ["r1"; ""; "ok"]]
  ∧ (run [Some ["r1"; ""; "acquire"; "k"; "c1"; "10"; "read_only"];
          Some ["r1"; ""; "acquire"; "k"; "c1"; "10"; "read_only"]]).1
    = Ret true
  ∧ sent (run [Some ["r1"; ""; "acquire"; "k"; "c1"; "10"; "read_only"];
               Some ["r1"; ""; "acquire"; "k"; "c1"; "10"; "read_only"]]).2
    = [["r1"; ""; "ok"]; ["r1"; ""; "ok"]]
  ∧ (run [Some ["r1"; ""; "acquire"; "k"; "c1"; "10"; "read_only"];
          Some ["r1"; ""; "acquire"; "k"; "c1"; "10"]]).1
    = Ret true
  ∧ sent (run [Some ["r1"; ""; "acquire"; "k"; "c1"; "10"; "read_only"];
               Some ["r1"; ""; "acquire"; "k"; "c1"; "10"]]).2
    = [["r1"; ""; "ok"]; ["r1"; ""; ERR_INVALID_REENTRY]].
Proof. repeat split; vm_compute; reflexivity. Qed.

(** C3, at the input that breaks it.  ["c1"] acquires ["k"] as writer and
    its request is HELD.  Its next acquire frame asks for [read_only]:
    [Lock.acquire] puts the writer among the waiting readers and returns
    [False], the [assert] fails, no reply is sent and the
    [AssertionError] leaves the loop. *)
Theorem C3_writer_reentry_read_only_aborts (P : SetPop) :
  ∃ s1 s2 self r l,
    ZMQLockServer.run_iteration P
      (Some ["r1"; ""; "acquire"; "k"; "c1"; "10"]) (State.init clk0)
    = (Ret true, s1)
    ∧ active_requests s1 !! ("k", "c1") = Some self
    ∧ objects s1 !! self = Some r
    ∧ state r = HELD
    ∧ ZMQLockServer.run_iteration P
        (Some ["r1"; ""; "acquire"; "k"; "c1"; "10"; "read_only"]) s1
      = (Raise AssertionError, s2)
    ∧ sent s2 = sent s1
    ∧ active_locks s2 !! "k" = Some l
    ∧ Lock.writer l = Some "c1"
    ∧ "c1" ∈ Lock.waiting_readers l.
Proof.
  do 5 eexists.
  split; [vm_compute; reflexivity|].
  split; [vm_compute; reflexivity|].
  split; [vm_compute; reflexivity|].
  split; [reflexivity|].
  split; [vm_compute; reflexivity|].
  split; [reflexivity|].
  split; [vm_compute; reflexivity|].
  split; [reflexivity|].
  set_solver.
Qed.

(** A timeout that parses as an infinity is answered with
    [ERR_TIMEOUT_INVALID], and nothing but the reply changes. *)
Lemma infinite_timeout_rejected (s : server) (rid key client tb : string)
    (negative : bool) (rest : list bytes) :
  PyFloat.of_bytes tb = Some (FInf negative) →
  (length rest ≤ 1)%nat →
  ZMQLockServer.acquire_request rid (key :: client :: tb :: rest) s
  = (Ret (), set_sent (sent s ++ [[rid; ""; ERR_TIMEOUT_INVALID]]) s).
Proof.
  intros Htb Hlen. unfold ZMQLockServer.acquire_request.
  assert (negb ((3 <=? length (key :: client :: tb :: rest))%nat
                && (length (key :: client :: tb :: rest) <=? 4)%nat) = false)
    as ->.
  { destruct rest as [|? [|? ?]]; simpl in *; [done|done|lia]. }
  rewrite Htb. by destruct negative.
Qed.

Lemma infinite_literals :
  PyFloat.of_bytes "inf" = Some (FInf false)
  ∧ PyFloat.of_bytes "-inf" = Some (FInf true)
  ∧ PyFloat.of_bytes "Infinity" = Some (FInf false).
Proof. repeat split. Qed.

(** A decimal literal beyond the doubles is an infinity as well, and is
    answered in the same way; one below the least double is a zero. *)
Lemma overflowing_literals :
  PyFloat.of_bytes "1e400" = Some (FInf false)
  ∧ PyFloat.of_bytes "-1e400" = Some (FInf true)
  ∧ PyFloat.of_bytes "1e-400" = Some (FFin 0)
  ∧ PyFloat.of_bytes "-1e-400" = Some FNegZero
  ∧ in_INVALID_NUMBERS FNegZero = false.
Proof. repeat split; vm_compute; reflexivity. Qed.

(** Decimal literals denote the nearest double, and underscores may
    separate digits. *)
Lemma rounded_literals :
  PyFloat.of_bytes "0.1"
  = Some (FFin (3602879701896397 # 36028797018963968))
  ∧ PyFloat.of_bytes "9007199254740993" = Some (FFin 9007199254740992)
  ∧ PyFloat.of_bytes "1_0" = Some (FFin 10)
  ∧ PyFloat.of_bytes "1__0" = None
  ∧ PyFloat.of_bytes "1_" = None.
Proof. repeat split; vm_compute; reflexivity. Qed.

(** C4, at the input that breaks it.  The timeout [b'nan'] parses as NaN,
    which is [==] to no member of [INVALID_NUMBERS]; the frame is answered
    with [ok], and a lock, a request and a lease task are created. *)
Theorem C4_nan_timeout_is_accepted (P : SetPop) :
  PyFloat.of_bytes "nan" = Some FNaN
  ∧ in_INVALID_NUMBERS FNaN = false
  ∧ ∃ s1 l self r t,
      ZMQLockServer.run_iteration P
        (Some ["r1"; ""; "acquire"; "k"; "c1"; "nan"]) (State.init clk0)
      = (Ret true, s1)
      ∧ sent s1 = [["r1"; ""; "ok"]]
      ∧ active_locks s1 !! "k" = Some l
      ∧ Lock.writer l = Some "c1"
      ∧ active_requests s1 !! ("k", "c1") = Some self
      ∧ objects s1 !! self = Some r
      ∧ state r = HELD
      ∧ tasks s1 = [t]
      ∧ Task.due_at t = FNaN.
Proof.
  split; [reflexivity|]. split; [reflexivity|].
  do 5 eexists.
  split; [vm_compute; reflexivity|].
  split; [reflexivity|].
  split; [vm_compute; reflexivity|].
  split; [reflexivity|].
  split; [vm_compute; reflexivity|].
  split; [vm_compute; reflexivity|].
  split; [reflexivity|].
  split; reflexivity.
Qed.

(** On any server, a release frame for an untracked pair is answered with
    [ERR_NOT_HELD] and leaves a new request stored under the pair. *)
Lemma release_of_untracked_pair (P : SetPop) (s : server)
    (rid key client : string) :
  active_requests s !! (key, client) = None →
  ∃ s', ZMQLockServer.release_request P rid [key; client] s = (Ret (), s')
        ∧ sent s' = sent s ++ [[rid; ""; ERR_NOT_HELD]]
        ∧ active_requests s'
          = <[(key, client) := next_id s]> (active_requests s)
        ∧ objects s' !! next_id s = Some (LockRequest.init key client).
Proof.
  intros Hslot. unfold ZMQLockServer.release_request.
  cbn [length Nat.eqb negb].
  unfold LockRequest.instance, bind. run_step. rewrite Hslot. run_step.
  unfold LockRequest.release_request, bind.
  erewrite load_eq by load_field. run_step.
  eexists. split; [reflexivity|]. run_step.
  repeat split. apply lookup_insert_eq.
Qed.

(** C9, at the input that breaks it.  On a server that tracks nothing, a
    release frame for [("k", "c1")] is answered with [ERR_NOT_HELD], but
    [LockRequest.instance] has stored a new request in state INITIAL under
    that pair, and it stays in the table. *)
Theorem C9_release_of_untracked_pair_is_tracked (P : SetPop) :
  active_requests (State.init clk0) = ∅
  ∧ ∃ s1,
      ZMQLockServer.run_iteration P
        (Some ["r1"; ""; "release"; "k"; "c1"]) (State.init clk0)
      = (Ret true, s1)
      ∧ sent s1 = [["r1"; ""; ERR_NOT_HELD]]
      ∧ active_requests s1 = {[("k", "c1") := 0%nat]}
      ∧ objects s1 !! 0%nat = Some (LockRequest.init "k" "c1").
Proof.
  split; [reflexivity|].
  eexists.
  split; [vm_compute; reflexivity|].
  split; [reflexivity|].
  split; vm_compute; reflexivity.
Qed.

(** ** The request state machine *)

(** A request that is PRESENT_WAITING answers every acquire and every
    release with [ERR_CONCURRENT] and does nothing else. *)
Lemma present_waiting_acquire_request self r rid t ro s :
  objects s !! self = Some r → state r = PRESENT_WAITING →
  LockRequest.acquire_request self rid t ro s
  = (Ret (), set_sent (sent s ++ [[rid; ""; ERR_CONCURRENT]]) s).
Proof.
  intros Hr Hst. unfold LockRequest.acquire_request, bind.
  rewrite (load_eq _ _ _ Hr), Hst. reflexivity.
Qed.

Lemma present_waiting_release_request P self r rid s :
  objects s !! self = Some r → state r = PRESENT_WAITING →
  LockRequest.release_request P self rid s
  = (Ret (), set_sent (sent s ++ [[rid; ""; ERR_CONCURRENT]]) s).
Proof.
  intros Hr Hst. unfold LockRequest.release_request, bind.
  rewrite (load_eq _ _ _ Hr), Hst. reflexivity.
Qed.

(** C8.  The slot [(key, client)] is tracked and its request is
    PRESENT_WAITING.  An acquire frame for the slot (with a timeout that
    passes validation, with or without [read_only]) and a release frame for
    the slot are answered with [ERR_CONCURRENT]; the server state after
    the frame is the state before it with that reply sent: the request, the
    locks and the pending tasks are the same. *)
Theorem C8_present_waiting_replies_concurrent (P : SetPop) (s : server)
    (key client : string) (self : nat) (r : request) :
  active_requests s !! (key, client) = Some self →
  objects s !! self = Some r →
  state r = PRESENT_WAITING →
  (∀ rid tb t rest,
     PyFloat.of_bytes tb = Some t → in_INVALID_NUMBERS t = false →
     rest = [] ∨ rest = ["read_only"] →
     ZMQLockServer.acquire_request rid (key :: client :: tb :: rest) s
     = (Ret (), set_sent (sent s ++ [[rid; ""; ERR_CONCURRENT]]) s))
  ∧ (∀ rid,
       ZMQLockServer.release_request P rid [key; client] s
       = (Ret (), set_sent (sent s ++ [[rid; ""; ERR_CONCURRENT]]) s))
  ∧ (∀ rid reply,
       let s' := set_sent (sent s ++ [[rid; ""; reply]]) s in
       objects s' !! self = Some r
       ∧ active_requests s' = active_requests s
       ∧ active_locks s' = active_locks s
       ∧ tasks s' = tasks s).
Proof.
  intros Hslot Hr Hst. split; [|split].
  - intros rid tb t rest Htb Hvalid Hrest.
    unfold ZMQLockServer.acquire_request.
    destruct Hrest as [-> | ->]; cbn [length Nat.leb Nat.eqb negb andb];
      rewrite Htb, Hvalid; cbn [lookup list_lookup];
      [|rewrite bool_decide_eq_false_2 by (intros H; by apply H)];
      unfold bind; rewrite (instance_tracked _ _ _ _ Hslot);
      by apply (present_waiting_acquire_request _ r).
  - intros rid. unfold ZMQLockServer.release_request.
    cbn [length Nat.eqb negb]. unfold bind.
    rewrite (instance_tracked _ _ _ _ Hslot).
    by apply (present_waiting_release_request _ _ r).
  - intros rid reply. by repeat split.
Qed.

(** The theorem at the request of ["c2"], which waits for the lock that
    ["c1"] holds. *)
Lemma C8_witness :
  (active_requests server_c2_waits !! ("k", "c2") = Some 2%nat
   ∧ (∃ r, objects server_c2_waits !! 2%nat = Some r
           ∧ state r = PRESENT_WAITING)
   ∧ PyFloat.of_bytes "10" = Some (FFin 10)
   ∧ in_INVALID_NUMBERS (FFin 10) = false)
  ∧ ZMQLockServer.acquire_request "r2" ["k"; "c2"; "10"] server_c2_waits
    = (Ret (),
       set_sent (sent server_c2_waits ++ [["r2"; ""; ERR_CONCURRENT]])
         server_c2_waits)
  ∧ ZMQLockServer.release_request first_pop "r2" ["k"; "c2"] server_c2_waits
    = (Ret (),
       set_sent (sent server_c2_waits ++ [["r2"; ""; ERR_CONCURRENT]])
         server_c2_waits).
Proof.
  assert (active_requests server_c2_waits !! ("k", "c2") = Some 2%nat) as H1
    by (vm_compute; reflexivity).
  assert (∃ r, objects server_c2_waits !! 2%nat = Some r
               ∧ state r = PRESENT_WAITING) as [r [H2 H3]]
    by (eexists; split; [vm_compute; reflexivity|reflexivity]).
  split; [repeat split; eauto|].
  destruct (C8_present_waiting_replies_concurrent first_pop server_c2_waits
              "k" "c2" 2 r H1 H2 H3) as (Ha & Hb & _).
  split.
  - apply (Ha "r2" "10" (FFin 10) []); [reflexivity|reflexivity|by left].
  - apply Hb.
Defined.

(** *** Floats *)

Lemma Qlt_bool_iff (x y : Q) : Qlt_bool x y = true ↔ (x < y)%Q.
Proof.
  unfold Qlt_bool. rewrite negb_true_iff. split.
  - intros H. apply Qnot_le_lt. intros Hle.
    apply Qle_bool_iff in Hle. congruence.
  - intros H. destruct (Qle_bool y x) eqn:E; [|done].
    apply Qle_bool_iff in E. by apply Qlt_not_le in H.
Qed.

Lemma Qlt_bool_false (x y : Q) : Qlt_bool x y = false ↔ (y <= x)%Q.
Proof.
  unfold Qlt_bool. rewrite negb_false_iff. apply Qle_bool_iff.
Qed.

(** *** Rounding *)

Lemma rne_div_bounds (a d : Z) :
  a / d ≤ rne_div a d ≤ a / d + 1.
Proof.
  unfold rne_div.
  destruct (2 * (a mod d) <? d), (d <? 2 * (a mod d)), (Z.even (a / d)); lia.
Qed.

Lemma rne_div_exact (k d : Z) : 0 < d → rne_div (k * d) d = k.
Proof.
  intros Hd. unfold rne_div.
  rewrite Z.div_mul, Z.mod_mul by lia.
  destruct (Z.ltb_spec (2 * 0) d); lia.
Qed.

Lemma rne_div_mono (a a' d : Z) :
  0 < d → a ≤ a' → rne_div a d ≤ rne_div a' d.
Proof.
  intros Hd Ha.
  pose proof (Z.div_le_mono a a' d Hd Ha) as Hk.
  destruct (decide (a / d = a' / d)) as [Heq|Hne].
  - pose proof (Z.div_mod a d ltac:(lia)) as E.
    pose proof (Z.div_mod a' d ltac:(lia)) as E'.
    unfold rne_div. rewrite <- Heq in *.
    destruct (Z.ltb_spec (2 * (a mod d)) d),
             (Z.ltb_spec (2 * (a' mod d)) d),
             (Z.ltb_spec d (2 * (a mod d))),
             (Z.ltb_spec d (2 * (a' mod d))),
             (Z.even (a / d)); lia.
  - pose proof (rne_div_bounds a d). pose proof (rne_div_bounds a' d). lia.
Qed.

Lemma rne_div_scale (a d c : Z) :
  0 < d → 0 < c → rne_div (a * c) (d * c) = rne_div a d.
Proof.
  intros Hd Hc. unfold rne_div.
  rewrite Z.div_mul_cancel_r, Z.mul_mod_distr_r by lia.
  destruct (Z.ltb_spec (2 * (a mod d * c)) (d * c)),
           (Z.ltb_spec (2 * (a mod d)) d),
           (Z.ltb_spec (d * c) (2 * (a mod d * c))),
           (Z.ltb_spec d (2 * (a mod d))); try reflexivity; nia.
Qed.

Lemma ulp_exponent_spec (n : Z) :
  0 ≤ n →
  0 ≤ ulp_exponent n
  ∧ n < 2 ^ (53 + ulp_exponent n)
  ∧ (0 < ulp_exponent n → 2 ^ (52 + ulp_exponent n) ≤ n).
Proof.
  intros Hn. unfold ulp_exponent.
  destruct (Z.ltb_spec n (2 ^ 53)) as [Hlt|Hge].
  - split; [lia|]. split; [|lia]. by rewrite Z.add_0_r.
  - assert (0 < n) as Hpos by lia.
    pose proof (Z.log2_spec n Hpos) as [Hlo Hhi].
    assert (53 ≤ Z.log2 n) as Hlog.
    { apply Z.log2_le_pow2; [lia|exact Hge]. }
    split; [lia|]. split.
    + replace (53 + (Z.log2 n - 52)) with (Z.succ (Z.log2 n)) by lia.
      exact Hhi.
    + intros _. replace (52 + (Z.log2 n - 52)) with (Z.log2 n) by lia.
      exact Hlo.
Qed.

Lemma ulp_exponent_mono (n n' : Z) :
  0 ≤ n → n ≤ n' → ulp_exponent n ≤ ulp_exponent n'.
Proof.
  intros Hn Hle. unfold ulp_exponent.
  destruct (Z.ltb_spec n (2 ^ 53)), (Z.ltb_spec n' (2 ^ 53)); try lia.
  - assert (53 ≤ Z.log2 n') by (apply Z.log2_le_pow2; lia). lia.
  - pose proof (Z.log2_le_mono n n' Hle). lia.
Qed.

Lemma round_steps_nonneg (a b : Z) : 0 ≤ a → 0 < b → 0 ≤ round_steps a b.
Proof.
  intros Ha Hb. unfold round_steps.
  set (j := ulp_exponent (a / b)).
  assert (0 ≤ a / b) as Hq by (apply Z.div_pos; lia).
  destruct (ulp_exponent_spec _ Hq) as (Hj & _).
  assert (0 < 2 ^ j) by (by apply Z.pow_pos_nonneg).
  pose proof (rne_div_bounds a (b * 2 ^ j)).
  assert (0 ≤ a / (b * 2 ^ j)) by (apply Z.div_pos; nia).
  nia.
Qed.

Lemma round_steps_mono (a a' b : Z) :
  0 ≤ a → a ≤ a' → 0 < b → round_steps a b ≤ round_steps a' b.
Proof.
  intros Ha Hle Hb. unfold round_steps.
  assert (0 ≤ a / b) as Hq by (apply Z.div_pos; lia).
  assert (a / b ≤ a' / b) as Hqq by (by apply Z.div_le_mono).
  destruct (ulp_exponent_spec _ Hq) as (Hj & Hhi & _).
  destruct (ulp_exponent_spec (a' / b) ltac:(lia)) as (Hj' & _ & Hlo').
  pose proof (ulp_exponent_mono _ _ Hq Hqq) as Hjj.
  set (j := ulp_exponent (a / b)) in *.
  set (j' := ulp_exponent (a' / b)) in *.
  assert (0 < 2 ^ j) as Hp by (by apply Z.pow_pos_nonneg).
  assert (0 < 2 ^ j') as Hp' by (by apply Z.pow_pos_nonneg).
  destruct (decide (j = j')) as [<-|Hne].
  - apply Z.mul_le_mono_nonneg_r; [lia|]. apply rne_div_mono; nia.
  - (* the binade boundary [2^(53+j)] lies between the two results *)
    assert (rne_div a (b * 2 ^ j) * 2 ^ j ≤ 2 ^ (53 + j)) as H1.
    { rewrite Z.pow_add_r by lia.
      apply Z.mul_le_mono_nonneg_r; [lia|].
      pose proof (rne_div_bounds a (b * 2 ^ j)) as [_ Hup].
      assert (a / (b * 2 ^ j) < 2 ^ 53); [|lia].
      rewrite <- Z.div_div by lia.
      apply Z.div_lt_upper_bound; [lia|].
      rewrite <- Z.pow_add_r by lia. by rewrite Z.add_comm. }
    assert (2 ^ (53 + j) ≤ rne_div a' (b * 2 ^ j') * 2 ^ j') as H2.
    { assert (2 ^ 52 ≤ rne_div a' (b * 2 ^ j')) as Hk.
      { pose proof (rne_div_bounds a' (b * 2 ^ j')) as [Hdn _].
        assert (2 ^ 52 ≤ a' / (b * 2 ^ j')); [|lia].
        rewrite <- Z.div_div by lia.
        apply Z.div_le_lower_bound; [lia|].
        rewrite <- Z.pow_add_r by lia. rewrite Z.add_comm.
        apply Hlo'. lia. }
      assert (2 ^ (53 + j) ≤ 2 ^ 52 * 2 ^ j').
      { rewrite <- Z.pow_add_r by lia. apply Z.pow_le_mono_r; lia. }
      nia. }
    lia.
Qed.

Lemma round_steps_scale (a b c : Z) :
  0 < b → 0 < c → round_steps (a * c) (b * c) = round_steps a b.
Proof.
  intros Hb Hc. unfold round_steps.
  rewrite Z.div_mul_cancel_r by lia.
  set (j := ulp_exponent (a / b)).
  replace (b * c * 2 ^ j) with (b * 2 ^ j * c) by lia.
  assert (0 < 2 ^ j).
  { apply Z.pow_pos_nonneg; [lia|]. unfold j, ulp_exponent.
    destruct (a / b <? 2 ^ 53) eqn:E; [lia|].
    apply Z.ltb_ge in E.
    assert (53 ≤ Z.log2 (a / b)) by (apply Z.log2_le_pow2; lia). lia. }
  rewrite rne_div_scale by nia. reflexivity.
Qed.

(** Rounding in steps keeps the order of two fractions. *)
Lemma round_steps_le (a b a' b' : Z) :
  0 ≤ a → 0 < b → 0 < b' → a * b' ≤ a' * b →
  round_steps a b ≤ round_steps a' b'.
Proof.
  intros Ha Hb Hb' Hle.
  rewrite <- (round_steps_scale a b b') by lia.
  rewrite <- (round_steps_scale a' b' b) by lia.
  rewrite (Z.mul_comm b' b).
  apply round_steps_mono; nia.
Qed.

Lemma round_steps_0 (b : Z) : 0 < b → round_steps 0 b = 0.
Proof.
  intros Hb. unfold round_steps. rewrite Z.div_0_l by lia.
  change (ulp_exponent 0) with 0. rewrite Z.pow_0_r, !Z.mul_1_r.
  apply (rne_div_exact 0 b Hb).
Qed.

(** The order of the doubles given in steps. *)
Lemma flt_of_steps (s s' : bool) (u u' : Z) :
  0 ≤ u → 0 ≤ u' →
  (if s then - u else u) ≤ (if s' then - u' else u') →
  flt (of_steps s' u') (of_steps s u) = false.
Proof.
  intros Hu Hu' Hle. unfold of_steps.
  assert (0 < overflow_steps) as Ho by reflexivity.
  assert (∀ v w : Z, v ≤ w →
            Qlt_bool (Qred (w # steps)) (Qred (v # steps)) = false) as Hq.
  { intros v w Hvw. apply Qlt_bool_false. rewrite !Qred_correct.
    unfold Qle. cbn [Qnum Qden]. nia. }
  assert (∀ v : Z, 0 ≤ v → Qlt_bool (Qred (v # steps)) 0 = false) as Hq0.
  { intros v Hv. apply Qlt_bool_false. rewrite !Qred_correct.
    unfold Qle. cbn [Qnum Qden]. lia. }
  assert (∀ v : Z, v ≤ 0 → Qlt_bool 0 (Qred (v # steps)) = false) as Hq1.
  { intros v Hv. apply Qlt_bool_false. rewrite !Qred_correct.
    unfold Qle. cbn [Qnum Qden]. lia. }
  destruct (Z.leb_spec overflow_steps u), (Z.leb_spec overflow_steps u'),
           (Z.eqb_spec u 0), (Z.eqb_spec u' 0), s, s';
    cbn [flt andb negb]; try reflexivity; try lia;
    first [ apply Hq; lia | apply Hq0; lia | apply Hq1; lia ].
Qed.

(** Rounding keeps the order. *)
Lemma round64_mono (x y : Q) :
  (x <= y)%Q → flt (round64 y) (round64 x) = false.
Proof.
  intros Hxy. unfold round64. unfold Qle in Hxy.
  destruct x as [a b], y as [a' b']. cbn [Qnum Qden] in *.
  assert (0 < Zpos steps) as Hs by lia.
  set (S := Zpos steps) in *.
  apply flt_of_steps.
  - apply round_steps_nonneg; nia.
  - apply round_steps_nonneg; nia.
  - destruct (Z.ltb_spec a 0), (Z.ltb_spec a' 0).
    + apply Z.opp_le_mono. rewrite !Z.opp_involutive.
      apply round_steps_le; nia.
    + pose proof (round_steps_nonneg (Z.abs a * S) (Zpos b)).
      pose proof (round_steps_nonneg (Z.abs a' * S) (Zpos b')). nia.
    + nia.
    + apply round_steps_le; nia.
Qed.


Lemma round64_0 : round64 0 = FFin 0.
Proof.
  unfold round64. cbn [Qnum Qden Z.ltb Z.compare Z.abs Z.mul].
  rewrite round_steps_0 by lia. reflexivity.
Qed.

Lemma round64_not_nan (x : Q) : round64 x ≠ FNaN.
Proof.
  unfold round64, of_steps.
  destruct (_ <=? _); [done|]. destruct (_ =? 0); [|done].
  by destruct (_ <? 0).
Qed.



(** *** The order of the floats *)

Ltac Qorder :=
  repeat match goal with
         | H : Qlt_bool _ _ = true |- _ => apply Qlt_bool_iff in H
         | H : Qlt_bool _ _ = false |- _ => apply Qlt_bool_false in H
         end;
  lazymatch goal with
  | |- Qlt_bool _ _ = true => apply Qlt_bool_iff
  | |- Qlt_bool _ _ = false => apply Qlt_bool_false
  | |- _ => idtac
  end;
  first [ done | lra ].

(** [d < p] and [p ≤ q] give [d < q]. *)
Lemma flt_le_trans (d p q : pyfloat) :
  q ≠ FNaN → flt d p = true → flt q p = false → flt d q = true.
Proof.
  intros Hq.
  destruct d as [|[]|?|], p as [|[]|?|], q as [|[]|?|];
    cbn [flt andb negb]; intros H1 H2; try done; Qorder.
Qed.


(** The sum grows with its first term. *)
Lemma fadd_mono (a b t d : pyfloat) :
  a ≠ FNaN → b ≠ FNaN → flt b a = false →
  flt d (fadd a t) = true → flt d (fadd b t) = true.
Proof.
  intros Ha Hb Hab.
  assert (∀ x y : Q, (x <= y)%Q →
            flt d (round64 x) = true → flt d (round64 y) = true) as Hr.
  { intros x y Hxy H. apply (flt_le_trans _ (round64 x)); [|done|].
    - apply round64_not_nan.
    - by apply round64_mono. }
  assert (∀ y : Q, (0 <= y)%Q →
            flt d FNegZero = true → flt d (round64 y) = true) as Hz.
  { intros y Hy H. apply (Hr 0%Q y Hy). rewrite round64_0.
    by destruct d as [|[]|?|]. }
  assert (∀ x : Q, (x <= 0)%Q →
            flt d (round64 x) = true → flt d FNegZero = true) as Hz'.
  { intros x Hx H. apply (Hr x 0%Q Hx) in H. rewrite round64_0 in H.
    by destruct d as [|[]|?|]. }
  destruct a as [|[]|x|], b as [|[]|y|], t as [|[]|z|];
    cbn [flt fadd andb negb Bool.eqb] in *; try done;
    try (by destruct d as [|[]|?|]);
    first [ apply Hr; Qorder | apply Hz; Qorder | apply Hz'; Qorder
          | intros H; eapply (flt_le_trans _ _ (FInf false));
            [done|exact H|by destruct (round64 _) as [|[]|?|]] ].
Qed.

(** A later reading of the clock gives a later deadline. *)
Lemma fgt_fadd_later (c c' : Q) (t d : pyfloat) :
  (c <= c')%Q →
  fgt (fadd (round64 c) t) d = true → fgt (fadd (round64 c') t) d = true.
Proof.
  intros Hc. unfold fgt. apply fadd_mono.
  - apply round64_not_nan.
  - apply round64_not_nan.
  - by apply round64_mono.
Qed.






(** *** The task queue *)

(** [add] inserts the task somewhere and keeps every other task. *)
Lemma add_split (q : list Task.t) (t : Task.t) :
  ∃ q1 q2, q = q1 ++ q2 ∧ TaskQueue.add q t = q1 ++ t :: q2.
Proof.
  unfold TaskQueue.add.
  exists (take (TaskQueue.bisect (S (length q)) q t 0 (length q)) q),
         (drop (TaskQueue.bisect (S (length q)) q t 0 (length q)) q).
  by rewrite take_drop.
Qed.

Lemma elem_of_add (q : list Task.t) (t x : Task.t) :
  x ∈ TaskQueue.add q t ↔ x = t ∨ x ∈ q.
Proof.
  destruct (add_split q t) as (q1 & q2 & -> & ->).
  rewrite !elem_of_app, elem_of_cons. tauto.
Qed.

(** In a queue of distinct objects, cancelling a pending task removes it
    for good. *)
Lemma cancel_pending (q : list Task.t) (t : Task.t) :
  t ∈ q → NoDup (map Task.id q) →
  ∃ q', TaskQueue.cancel q t = Ret q'
        ∧ (t ∉ q')
        ∧ (∀ x, x ∈ q' → x ∈ q)
        ∧ (∀ x, x ∈ q → x = t ∨ x ∈ q').
Proof.
  intros Hin Hnd. unfold TaskQueue.cancel.
  induction q as [|y q IH]; [by apply elem_of_nil in Hin|].
  simpl in Hnd. apply NoDup_cons in Hnd as [Hy Hnd]. simpl.
  destruct (Task.eqb y t) eqn:E.
  - unfold Task.eqb in E. apply Nat.eqb_eq in E.
    assert (t ∉ q) as Hnot.
    { intros Ht. apply Hy. rewrite E. apply list_elem_of_fmap. eauto. }
    exists q. repeat split; [done|by right|].
    intros x [->|Hx]%elem_of_cons; [|by right].
    apply elem_of_cons in Hin as [->|Ht]; [by left|done].
  - apply elem_of_cons in Hin as [->|Hin].
    { unfold Task.eqb in E. by rewrite Nat.eqb_refl in E. }
    destruct (IH Hin Hnd) as (q' & Hq' & Hnot & Hsub & Hsup).
    destruct (TaskQueue.remove q t) as [q0|]; [|done].
    injection Hq' as ->. exists (y :: q'). simpl. repeat split.
    + intros [->|H]%elem_of_cons; [|done].
      unfold Task.eqb in E. by rewrite Nat.eqb_refl in E.
    + intros x [->|Hx]%elem_of_cons; [left|right; by apply Hsub].
    + intros x [->|Hx]%elem_of_cons; [right; left|].
      destruct (Hsup x Hx) as [->|H]; [by left|right; by right].
Qed.

(** The deadline of a reentry is a rounded sum.  ["c1"] holds ["k"] with a
    lease due at [2^53]; at the clock reading 1 it re-enters with the timeout
    [2^53].  The sum is [2^53] again, which is not greater than the due
    time: the lease stays. *)
Lemma reentry_with_rounded_deadline :
  ∃ s1 s2 lease,
    ZMQLockServer.run_iteration first_pop
      (Some ["r1"; ""; "acquire"; "k"; "c1"; "9007199254740992"])
      (State.init clk_half)
    = (Ret true, s1)
    ∧ tasks s1 = [lease]
    ∧ Task.due_at lease = FFin 9007199254740992
    ∧ round64 (clock s1 (S (clock_reads s1))) = FFin 1
    ∧ fadd (FFin 1) (FFin 9007199254740992) = FFin 9007199254740992
    ∧ ZMQLockServer.run_iteration first_pop
        (Some ["r1"; ""; "acquire"; "k"; "c1"; "9007199254740992"]) s1
      = (Ret true, s2)
    ∧ sent s2 = [["r1"; ""; "ok"]; ["r1"; ""; "ok"]]
    ∧ tasks s2 = [lease].
Proof.
  do 3 eexists.
  split; [vm_compute; reflexivity|].
  split; [reflexivity|].
  split; [reflexivity|].
  split; [vm_compute; reflexivity|].
  split; [vm_compute; reflexivity|].
  split; [vm_compute; reflexivity|].
  split; reflexivity.
Qed.

(** C7.  The request [self] is HELD with the pending lease task [lease], and
    the reentry succeeds ([Lock.acquire] returns [True]).  The handler
    replies [ok] and stays HELD.  If the new deadline, the double sum of
    the clock reading and [t], is strictly greater than [lease.due_at], the
    lease is cancelled and a new lease task, due [t] after the next clock
    reading, is queued and recorded; as the clock does not go back, it is
    due later than the old one.  Otherwise queue and request are
    untouched.  So [lease] is still pending afterwards exactly when the new
    deadline is not strictly greater. *)
Theorem C7_reentry_only_extends_lease (s : server) (self : nat)
    (r : request) (lease : Task.t) (rid : RoutingId) (t : pyfloat)
    (ro : bool) :
  objects s !! self = Some r →
  state r = HELD →
  timeout_task r = Some lease →
  (Lock.acquire (default (Lock.init (key r)) (active_locks s !! key r))
     (client_id r) ro).2 = Ret true →
  lease ∈ tasks s →
  NoDup (map Task.id (tasks s)) →
  Forall (λ y, (Task.id y < next_id s)%nat) (tasks s) →
  let now := round64 (clock s (clock_reads s)) in
  let later := round64 (clock s (S (clock_reads s))) in
  let lease' := Task.mk (next_id s) (fadd later t) (release_of self true)
                  false in
  ∃ s' r',
    LockRequest.acquire_request self rid t ro s = (Ret (), s')
    ∧ sent s' = sent s ++ [[rid; ""; "ok"]]
    ∧ objects s' !! self = Some r'
    ∧ state r' = HELD
    ∧ (if fgt (fadd now t) (Task.due_at lease) then
         ∃ q', TaskQueue.cancel (tasks s) lease = Ret q'
               ∧ tasks s' = TaskQueue.add q' lease'
               ∧ r' = set_timeout_task (Some lease') r
               ∧ lease' ∈ tasks s'
               ∧ ((clock s (clock_reads s) <= clock s (S (clock_reads s)))%Q
                  → fgt (Task.due_at lease') (Task.due_at lease) = true)
       else tasks s' = tasks s ∧ r' = r)
    ∧ (lease ∈ tasks s' ↔ fgt (fadd now t) (Task.due_at lease) = false).
Proof.
  intros Hr Hst Hlease Hacq Hin Hnd Hids now later lease'.
  unfold LockRequest.acquire_request. unfold bind at 1.
  rewrite (load_eq _ _ _ Hr), Hst.
  unfold try_except, bind, lock_call.
  destruct (Lock.acquire _ (client_id r) ro) as [l' res] eqn:E.
  simpl in Hacq. subst res.
  run_step.
  rewrite (load_eq self r) by exact Hr.
  rewrite Hlease. fold now.
  destruct (fgt (fadd now t) (Task.due_at lease)) eqn:Hgt.
  - destruct (cancel_pending _ _ Hin Hnd) as (q' & Hq' & Hnot & Hsub & Hsup).
    unfold LockRequest.cancel_timeout_release, bind.
    rewrite (load_eq self r) by exact Hr.
    rewrite Hlease. run_step. rewrite Hq'.
    unfold LockRequest.schedule_timeout_release. run_step.
    fold later. fold lease'.
    eexists. exists (set_timeout_task (Some lease') r).
    split; [reflexivity|]. run_step.
    assert (lease ≠ lease') as Hne.
    { intros ->. rewrite Forall_forall in Hids.
      specialize (Hids _ Hin). simpl in Hids. lia. }
    split; [done|]. split; [by rewrite lookup_alter_eq, Hr|].
    split; [done|]. split.
    + exists q'. repeat split; [by apply elem_of_add; left|].
      intros Hmono. by apply (fgt_fadd_later _ _ _ _ Hmono).
    + rewrite elem_of_add. split; [|done].
      intros [H|H]; done.
  - run_step. exists (set_clock_reads (S (clock_reads s))
                (set_sent (sent s ++ [[rid; ""; "ok"]])
                   (set_active_locks
                      (if Lock.invalid l'
                       then delete (Lock.key l')
                              (<[key r:=l']> (active_locks s))
                       else <[key r:=l']> (active_locks s)) s))), r.
    repeat split; done.
Qed.

(** The theorem at the request of ["c1"], whose lease is due at 10: a
    reentry with timeout 20 at time 1 replaces the lease, one with timeout
    5 keeps it. *)
Lemma C7_witness :
  (objects server_c1_holds !! 0%nat = Some c1_request
   ∧ state c1_request = HELD
   ∧ timeout_task c1_request = Some c1_lease
   ∧ (Lock.acquire
        (default (Lock.init "k") (active_locks server_c1_holds !! "k"))
        "c1" false).2 = Ret true
   ∧ c1_lease ∈ tasks server_c1_holds
   ∧ NoDup (map Task.id (tasks server_c1_holds))
   ∧ Forall (λ y, (Task.id y < next_id server_c1_holds)%nat)
       (tasks server_c1_holds))
  ∧ ∃ s',
      LockRequest.acquire_request 0 "r1" (FFin 20) false server_c1_holds
      = (Ret (), s')
      ∧ sent s' = sent server_c1_holds ++ [["r1"; ""; "ok"]]
      ∧ (c1_lease ∈ tasks s' ↔ true = false)
      ∧ ∃ s'',
          LockRequest.acquire_request 0 "r1" (FFin 5) false server_c1_holds
          = (Ret (), s'')
          ∧ (c1_lease ∈ tasks s'' ↔ false = false).
Proof.
  assert (tasks server_c1_holds = [c1_lease]) as Ht
    by (vm_compute; reflexivity).
  assert (objects server_c1_holds !! 0%nat = Some c1_request) as H1
    by (vm_compute; reflexivity).
  assert ((Lock.acquire
             (default (Lock.init "k") (active_locks server_c1_holds !! "k"))
             "c1" false).2 = Ret true) as H4
    by (vm_compute; reflexivity).
  assert (c1_lease ∈ tasks server_c1_holds) as H5 by (rewrite Ht; left).
  assert (NoDup (map Task.id (tasks server_c1_holds))) as H6
    by (rewrite Ht; apply NoDup_singleton).
  assert (Forall (λ y, (Task.id y < next_id server_c1_holds)%nat)
            (tasks server_c1_holds)) as H7
    by (rewrite Ht; repeat constructor).
  split; [by repeat split|].
  destruct (C7_reentry_only_extends_lease server_c1_holds 0 c1_request
              c1_lease "r1" (FFin 20) false H1 eq_refl eq_refl H4 H5 H6 H7)
    as (s' & r' & Hrun & Hsent & _ & _ & _ & Hiff).
  exists s'. split; [exact Hrun|]. split; [exact Hsent|].
  split; [revert Hiff; vm_compute; exact (λ H, H)|].
  destruct (C7_reentry_only_extends_lease server_c1_holds 0 c1_request
              c1_lease "r1" (FFin 5) false H1 eq_refl eq_refl H4 H5 H6 H7)
    as (s'' & r'' & Hrun' & _ & _ & _ & _ & Hiff').
  exists s''. split; [exact Hrun'|].
  revert Hiff'. vm_compute. exact (λ H, H).
Defined.

(** *** A lock with a single holder *)



(** *** Insertion of a task that is due before all others *)




(** *** The poll timeout *)


(** *** A lease with a negative timeout *)



